(** * Video composition and subtitle segment timing

    A shallow embedding of the algorithmic core of the short-form video
    pipeline: [VideoComposer] (src/video_editor/video_composer.py) and
    [WhisperSubtitles] (src/subtitle_generator/whisper_subtitles.py).

    Numbers.  Python ints are [Z].  A finite Python float is carried as the
    rational it denotes, in [Q].  Module [B64] gives the arithmetic of the
    Part Splitter and of the Frame Fitter as Python runs it, every float
    operation rounded to binary64; the results on the part count, on the
    scaled frame and on the loop count are stated on it.  The definitions
    of the same names outside [B64] read the operations as exact, and so do
    the time stamps of the Segment Timer, which are compared, subtracted
    and copied.

    Text.  A Python [str] is modelled as a [list ascii]; the model follows
    Python on the ASCII range, where the transcriber's English output lives.
    Characters above it are treated as symbols that are neither white space
    nor letters, and what is said on the case of a character is said of
    ASCII characters. *)

From Stdlib Require Import List Sorted Bool Arith ZArith QArith Qround Qminmax Qabs.
From Stdlib Require Import Lia Lqa.
From Stdlib Require Import Ascii String DecimalString DecimalZ.
Import ListNotations.

(** ** Python numeric primitives *)

Module Py.

(** [int(x)] on a float: truncation towards zero. *)
Definition int (x : Q) : Z := Z.quot (Qnum x) (Zpos (Qden x)).

(** [x % y] on floats, for [y <> 0], read as exact: the result has the sign
    of [y]. *)
Definition fmod (x y : Q) : Q := x - y * inject_Z (Qfloor (x / y)).

(** [range(n)]: empty when [n <= 0]. *)
Definition range (n : Z) : list Z := map Z.of_nat (seq 0 (Z.to_nat n)).

(** [min(a, b)]: [b] when [b < a], otherwise [a]. *)
Definition min (a b : Q) : Q := if Qlt_le_dec b a then b else a.

(** [max(a, b)]: [b] when [b > a], otherwise [a]. *)
Definition max (a b : Q) : Q := if Qlt_le_dec a b then b else a.

End Py.

(** ** Part Splitter: [VideoComposer._split_and_export_video]

    With the division, the remainder and the products read as exact. *)

Record PartBoundary := mkPart {
  part_index : Z;          (* the [_part<N>] suffix, [part_num + 1] *)
  part_start : Q;          (* [start_time] *)
  part_end   : Q           (* [end_time] *)
}.

(** [num_parts = int(total / max) + (1 if total % max > 0 else 0)] *)
Definition num_parts (total_duration max_duration : Q) : Z :=
  (Py.int (total_duration / max_duration)
   + (if Qlt_le_dec 0 (Py.fmod total_duration max_duration) then 1 else 0))%Z.

Definition part_boundary (total_duration max_duration : Q) (part_num : Z)
  : PartBoundary :=
  let start_time := inject_Z part_num * max_duration in
  let end_time := Py.min (inject_Z (part_num + 1) * max_duration) total_duration in
  mkPart (part_num + 1) start_time end_time.

(** The sub-clip windows exported by the loop over [range(num_parts)].
    A zero [max_duration] raises [ZeroDivisionError], which the method logs
    and re-raises: [None]. *)
Definition split_and_export_video (total_duration max_duration : Q)
  : option (list PartBoundary) :=
  if Qeq_bool max_duration 0 then None
  else Some (map (part_boundary total_duration max_duration)
                 (Py.range (num_parts total_duration max_duration))).

(** ** Frame Fitter: [VideoComposer._process_background_video] *)

(** The scaled frame and the crop window, when one is applied.  A window is
    the pair ([x1], [x2]) or ([y1], [y2]) handed to [crop].  [new_width] and
    [new_height] are the scaled size as the method computes it; [resize],
    given one side, derives the other by the same ratio. *)
Record FitGeometry := mkGeometry {
  new_width  : Z;
  new_height : Z;
  crop_x : option (Z * Z);
  crop_y : option (Z * Z)
}.

(** Spatial fitting, with the divisions and the product read as exact.
    [output_width] and [output_height] are the target frame, [video_width]
    and [video_height] the source's [size].  The divisions raise
    [ZeroDivisionError] on a zero divisor: [None]. *)
Definition fit_geometry (output_width output_height video_width video_height : Z)
  : option FitGeometry :=
  if (video_height =? 0)%Z || (output_height =? 0)%Z then None else
  let video_aspect := inject_Z video_width / inject_Z video_height in
  let target_aspect := inject_Z output_width / inject_Z output_height in
  if Qlt_le_dec target_aspect video_aspect then
    let new_height := output_height in
    let new_width := Py.int (inject_Z new_height * video_aspect) in
    let x_center := (new_width / 2)%Z in
    let crop_width := output_width in
    let x_start := (x_center - crop_width / 2)%Z in
    Some (mkGeometry new_width new_height
                     (Some (x_start, (x_start + crop_width)%Z)) None)
  else
    if Qeq_bool video_aspect 0 then None else
    let new_width := output_width in
    let new_height := Py.int (inject_Z new_width / video_aspect) in
    if (output_height <? new_height)%Z then
      let y_center := (new_height / 2)%Z in
      let crop_height := output_height in
      let y_start := (y_center - crop_height / 2)%Z in
      Some (mkGeometry new_width new_height
                       None (Some (y_start, (y_start + crop_height)%Z)))
    else Some (mkGeometry new_width new_height None None).

(** Temporal fitting: either [loop(n)] followed by [subclip(t1, t2)], or a
    [subclip(t1, t2)] of the source. *)
Inductive TemporalPlan :=
| LoopThenTrim (loops_needed : Z) (t1 t2 : Q)
| RandomWindow (t1 t2 : Q).

(** [n] loops of the source reach the target duration, and no smaller
    whole number of loops does. *)
Definition minimal_cover (duration target_duration : Q) (n : Z) : Prop :=
  target_duration <= inject_Z n * duration /\
  forall m : Z, target_duration <= inject_Z m * duration -> (n <= m)%Z.

(** ** Binary64 arithmetic *)

(** A Python float is an IEEE 754 binary64 number, and every float operation
    returns the exact result rounded to the nearest such number, ties to the
    even significand.  A finite float is carried as the rational it denotes;
    [b64] is the rounding.  Infinities, NaN, the sign of zero and overflow
    past the largest finite float are outside the model. *)

(** [2 ** e] *)
Definition pow2 (e : Z) : Q :=
  match e with
  | Z0 => 1
  | Zpos p => inject_Z (Z.pow_pos 2 p)
  | Zneg p => 1 # (Pos.pow 2 p)
  end.

(** Rounding to the nearest integer, ties to even. *)
Definition rne (x : Q) : Z :=
  let f := Qfloor x in
  match Qcompare (x - inject_Z f) (1 # 2) with
  | Lt => f
  | Gt => (f + 1)%Z
  | Eq => if Z.even f then f else (f + 1)%Z
  end.

(** [floor(log2(x))] for [x > 0]. *)
Definition ilog2 (x : Q) : Z :=
  if Qle_bool 1 x then Z.log2 (Qfloor x)
  else (- Z.log2_up (Qceiling (/ x)))%Z.

(** Exponent of the unit in the last place of the 53-bit significand that
    holds [x]; subnormal numbers share the exponent [-1074]. *)
Definition ulp_exponent (x : Q) : Z := Z.max (ilog2 (Qabs x) - 52) (-1074).

Definition b64 (x : Q) : Q :=
  if Qeq_bool x 0 then 0
  else let e := ulp_exponent x in inject_Z (rne (x / pow2 e)) * pow2 e.

Module B64.

(** [float(n)] on an int, as done before an int meets a float. *)
Definition of_int (n : Z) : Q := b64 (inject_Z n).

Definition add (x y : Q) : Q := b64 (x + y).
Definition sub (x y : Q) : Q := b64 (x - y).
Definition mul (x y : Q) : Q := b64 (x * y).

(** [x / y] for [y <> 0]; also [m / n] on two ints, which Python rounds
    once, from the exact quotient. *)
Definition div (x y : Q) : Q := b64 (x / y).

(** [x % y] on floats, for [y <> 0]: the exact remainder of the truncated
    division, moved by [y] when its sign differs from the sign of [y]. *)
Definition rem (x y : Q) : Q :=
  let m := x - y * inject_Z (Py.int (x / y)) in
  if Qeq_bool m 0 then 0
  else if xorb (Qle_bool 0 y) (Qle_bool 0 m) then add m y
  else m.

(** [random.uniform(a, b)] is [a + (b - a) * random()]; the draw [u] of
    [random()] is an argument. *)
Definition uniform (a b u : Q) : Q := add a (mul (sub b a) u).

(** *** Part Splitter: [VideoComposer._split_and_export_video] *)

(** [num_parts = int(total / max) + (1 if total % max > 0 else 0)] *)
Definition num_parts (total_duration max_duration : Q) : Z :=
  (Py.int (div total_duration max_duration)
   + (if Qlt_le_dec 0 (rem total_duration max_duration) then 1 else 0))%Z.

Definition part_boundary (total_duration max_duration : Q) (part_num : Z)
  : PartBoundary :=
  let start_time := mul (inject_Z part_num) max_duration in
  let end_time := Py.min (mul (inject_Z (part_num + 1)) max_duration)
                         total_duration in
  mkPart (part_num + 1) start_time end_time.

(** The sub-clip windows exported by the loop over [range(num_parts)].
    A zero [max_duration] raises [ZeroDivisionError], which the method logs
    and re-raises: [None]. *)
Definition split_and_export_video (total_duration max_duration : Q)
  : option (list PartBoundary) :=
  if Qeq_bool max_duration 0 then None
  else Some (map (part_boundary total_duration max_duration)
                 (Py.range (num_parts total_duration max_duration))).

(** *** Frame Fitter: [VideoComposer._process_background_video] *)

(** Spatial fitting.  [output_width] and [output_height] are the target
    frame, [video_width] and [video_height] the source's [size], all ints.
    The divisions raise [ZeroDivisionError] on a zero divisor: [None]. *)
Definition fit_geometry (output_width output_height video_width video_height : Z)
  : option FitGeometry :=
  if (video_height =? 0)%Z || (output_height =? 0)%Z then None else
  let video_aspect := div (inject_Z video_width) (inject_Z video_height) in
  let target_aspect := div (inject_Z output_width) (inject_Z output_height) in
  if Qlt_le_dec target_aspect video_aspect then
    let new_height := output_height in
    let new_width := Py.int (mul (of_int new_height) video_aspect) in
    let x_center := (new_width / 2)%Z in
    let crop_width := output_width in
    let x_start := (x_center - crop_width / 2)%Z in
    Some (mkGeometry new_width new_height
                     (Some (x_start, (x_start + crop_width)%Z)) None)
  else
    if Qeq_bool video_aspect 0 then None else
    let new_width := output_width in
    let new_height := Py.int (div (of_int new_width) video_aspect) in
    if (output_height <? new_height)%Z then
      let y_center := (new_height / 2)%Z in
      let crop_height := output_height in
      let y_start := (y_center - crop_height / 2)%Z in
      Some (mkGeometry new_width new_height
                       None (Some (y_start, (y_start + crop_height)%Z)))
    else Some (mkGeometry new_width new_height None None).

(** Temporal fitting.  A zero [duration] below the target raises
    [ZeroDivisionError]: [None]. *)
Definition fit_duration (duration target_duration u : Q) : option TemporalPlan :=
  if Qlt_le_dec duration target_duration then
    if Qeq_bool duration 0 then None else
    let loops_needed := (Py.int (div target_duration duration) + 1)%Z in
    Some (LoopThenTrim loops_needed 0 target_duration)
  else
    let max_start_time := Py.max 0 (sub duration target_duration) in
    let random_start := uniform 0 max_start_time u in
    Some (RandomWindow random_start (add random_start target_duration)).

End B64.

(** Height of the frame that a resize to [width] pixels gives a source of
    [video_width] by [video_height] pixels, at the source's own ratio and
    before it is cut to whole pixels. *)
Definition resized_height (width video_width video_height : Z) : Q :=
  inject_Z video_height * inject_Z width / inject_Z video_width.

(** The float nearest to a decimal literal. *)
Definition float_literal (n : Z) (d : positive) : Q := b64 (n # d).

(** ** Python string primitives *)

Abbreviation str := (list ascii).

Definition ch (n : nat) : ascii := ascii_of_nat n.

Definition SPACE : ascii := ch 32.
Definition COMMA : ascii := ch 44.
Definition DOT : ascii := ch 46.
Definition BANG : ascii := ch 33.
Definition QUESTION : ascii := ch 63.

(** [str.isspace] on the ASCII range: tab, line feed, vertical tab, form
    feed, carriage return, the four separators 28..31, and the space. *)
Definition isspace (c : ascii) : bool :=
  existsb (Ascii.eqb c) (map ch (9 :: 10 :: 11 :: 12 :: 13 :: 28 :: 29 :: 30 :: 31 :: 32 :: nil)%nat).

Definition islower (c : ascii) : bool :=
  (97 <=? nat_of_ascii c)%nat && (nat_of_ascii c <=? 122)%nat.

Definition isupper (c : ascii) : bool :=
  (65 <=? nat_of_ascii c)%nat && (nat_of_ascii c <=? 90)%nat.

(** [c.upper()] for a single character. *)
Definition upper (c : ascii) : ascii :=
  if islower c then ascii_of_nat (nat_of_ascii c - 32) else c.

Fixpoint lstrip (s : str) : str :=
  match s with
  | [] => []
  | c :: s' => if isspace c then lstrip s' else s
  end.

Definition rstrip (s : str) : str := rev (lstrip (rev s)).

Definition strip (s : str) : str := rstrip (lstrip s).

(** [s.split()]: the maximal runs of characters that are not white space. *)
Fixpoint split (s : str) : list str :=
  match s with
  | [] => []
  | c :: s' =>
      if isspace c then split s'
      else match s' with
           | [] => [[c]]
           | d :: _ =>
               if isspace d then [c] :: split s'
               else match split s' with
                    | t :: ts => (c :: t) :: ts
                    | [] => [[c]]
                    end
           end
  end.

(** [sep.join(l)] *)
Fixpoint join (sep : str) (l : list str) : str :=
  match l with
  | [] => []
  | t :: ts =>
      match ts with
      | [] => t
      | _ :: _ => t ++ sep ++ join sep ts
      end
  end.

Fixpoint startswith (p s : str) : bool :=
  match p, s with
  | [], _ => true
  | a :: p', b :: s' => Ascii.eqb a b && startswith p' s'
  | _ :: _, [] => false
  end.

(** Left-to-right scan of [s.replace(old, new)] for a non-empty [old];
    [skip] counts the characters of a match still to pass over. *)
Fixpoint replace_scan (old new : str) (skip : nat) (s : str) : str :=
  match s with
  | [] => []
  | c :: s' =>
      match skip with
      | S k => replace_scan old new k s'
      | O =>
          if startswith old s
          then new ++ replace_scan old new (List.length old - 1)%nat s'
          else c :: replace_scan old new 0 s'
      end
  end.

(** [s.replace(old, new)]: every non-overlapping occurrence, leftmost
    first; an empty [old] matches before each character and at the end. *)
Definition replace (old new : str) (s : str) : str :=
  match old with
  | [] => new ++ flat_map (fun c => c :: new) s
  | _ :: _ => replace_scan old new 0 s
  end.

(** [s.endswith(suffixes)] for one-character suffixes. *)
Definition endswith_any (suffixes : list ascii) (s : str) : bool :=
  match rev s with
  | [] => false
  | c :: _ => existsb (Ascii.eqb c) suffixes
  end.

(** ** Segment Timer: [WhisperSubtitles] *)

(** [_is_sentence_end] *)
Definition is_sentence_end (word : str) : bool :=
  endswith_any [DOT; BANG; QUESTION] (rstrip word).

Definition collapse_whitespace (text : str) : str := join [SPACE] (split text).

Definition capitalize_first (text : str) : str :=
  match text with
  | [] => []
  | c :: rest => upper c :: rest
  end.

(** [_clean_subtitle_text] *)
Definition clean_subtitle_text (text : str) : str :=
  let text := collapse_whitespace text in
  let text := capitalize_first text in
  let text := replace [SPACE; COMMA] [COMMA] text in
  let text := replace [SPACE; DOT] [DOT] text in
  let text := replace [SPACE; BANG] [BANG] text in
  let text := replace [SPACE; QUESTION] [QUESTION] text in
  text.

(** [d.get(key, default)] on a key that may be absent. *)
Definition dict_get {A : Type} (v : option A) (default : A) : A :=
  match v with
  | Some x => x
  | None => default
  end.

(** One entry of a transcription segment's ['words']. *)
Record WordInfo := mkWord {
  wi_word  : option str;
  wi_start : option Q;
  wi_end   : option Q
}.

(** A word entry without any key; stands for the entry that is not there. *)
Definition no_word : WordInfo := mkWord None None None.

(** One entry of the transcription result's ['segments']. *)
Record Segment := mkSegment {
  seg_words : option (list WordInfo);
  seg_text  : option str;
  seg_start : option Q;
  seg_end   : option Q
}.

(** An emitted subtitle segment. *)
Record Subtitle := mkSubtitle {
  sub_text     : str;
  sub_start    : Q;
  sub_end      : Q;
  sub_duration : Q
}.

Definition word_text (word_info : WordInfo) : str :=
  strip (dict_get (wi_word word_info) []).

Definition word_start (word_info : WordInfo) : Q := dict_get (wi_start word_info) 0.

Definition word_end (word_info : WordInfo) : Q := dict_get (wi_end word_info) 0.

Definition nonempty {A : Type} (l : list A) : bool :=
  match l with
  | [] => false
  | _ :: _ => true
  end.

Definition Qgtb (a b : Q) : bool := if Qlt_le_dec b a then true else false.

(** The variables of the word loop: the buffered words, the start of the
    first of them, and the segments emitted so far. *)
Record LoopState := mkState {
  current_segment   : list str;
  current_start     : option Q;
  subtitle_segments : list Subtitle
}.

Definition emit (words : list str) (start_time end_time : Q) : Subtitle :=
  mkSubtitle (clean_subtitle_text (join [SPACE] words))
             start_time end_time (end_time - start_time).

Section SegmentTimer.

(** [max_words_per_segment] and [PipelineConfig.MAX_SUBTITLE_DURATION] *)
Variable max_words_per_segment : Z.
Variable max_subtitle_duration : Q.

(** One iteration of [for word_info in words]. *)
Definition word_step (st : LoopState) (word_info : WordInfo) : LoopState :=
  let word := word_text word_info in
  let start_time := word_start word_info in
  let end_time := word_end word_info in
  if negb (nonempty word) then st
  else
    let start := match current_start st with
                 | None => start_time
                 | Some t => t
                 end in
    let buffer := current_segment st ++ [word] in
    let should_end_segment :=
      (max_words_per_segment <=? Z.of_nat (List.length buffer))%Z
      || is_sentence_end word
      || Qgtb (end_time - start) max_subtitle_duration in
    if should_end_segment
    then mkState [] None (subtitle_segments st ++ [emit buffer start end_time])
    else mkState buffer (Some start) (subtitle_segments st).

Definition word_loop (st : LoopState) (words : list WordInfo) : LoopState :=
  fold_left word_step words st.

(** "Handle remaining words in segment": the end is read from
    [words[-1]], the last entry of the segment's word list. *)
Definition flush (words : list WordInfo) (st : LoopState) : list Subtitle :=
  match current_start st with
  | Some start =>
      if nonempty (current_segment st) then
        let last_end :=
          dict_get (wi_end (last words no_word)) (start + 2) in
        subtitle_segments st
          ++ [emit (current_segment st) start last_end]
      else subtitle_segments st
  | None => subtitle_segments st
  end.

(** The body of [for segment in segments], on the list built so far. *)
Definition segment_step (out : list Subtitle) (segment : Segment) : list Subtitle :=
  let words := dict_get (seg_words segment) [] in
  if negb (nonempty words) then
    let text := strip (dict_get (seg_text segment) []) in
    if nonempty text then
      out ++ [mkSubtitle (clean_subtitle_text text)
                         (dict_get (seg_start segment) 0)
                         (dict_get (seg_end segment) 0)
                         (dict_get (seg_end segment) 0
                          - dict_get (seg_start segment) 0)]
    else out
  else flush words (word_loop (mkState [] None out) words).

(** [_create_subtitle_segments] on the result's ['segments'].  On entries
    of these types nothing in the body raises, so the [except] branch that
    returns the empty list is not reached. *)
Definition create_subtitle_segments (segments : list Segment) : list Subtitle :=
  fold_left segment_step segments [].

End SegmentTimer.

(** ** Provenance of the emitted segments

    The emitted dictionaries keep the joined text only.  To speak of the
    words a segment is made of, the word loop is run a second time on the
    [WordInfo] entries themselves; [groups_render] below relates the two. *)

Record Group := mkGroup {
  g_words : list WordInfo;
  g_start : Q;
  g_end   : Q
}.

Definition render (g : Group) : Subtitle :=
  emit (map word_text (g_words g)) (g_start g) (g_end g).

Record GroupState := mkGroups {
  pending : list WordInfo;
  closed  : list Group
}.

Definition first_start (buffer : list WordInfo) : Q :=
  word_start (hd no_word buffer).

Definition has_text (word_info : WordInfo) : bool := nonempty (word_text word_info).

Section SegmentGroups.

Variable max_words_per_segment : Z.
Variable max_subtitle_duration : Q.

Definition group_step (gs : GroupState) (word_info : WordInfo) : GroupState :=
  if negb (has_text word_info) then gs
  else
    let buffer := pending gs ++ [word_info] in
    let start := first_start buffer in
    let should_end_segment :=
      (max_words_per_segment <=? Z.of_nat (List.length buffer))%Z
      || is_sentence_end (word_text word_info)
      || Qgtb (word_end word_info - start) max_subtitle_duration in
    if should_end_segment
    then mkGroups [] (closed gs ++ [mkGroup buffer start (word_end word_info)])
    else mkGroups buffer (closed gs).

Definition group_loop (gs : GroupState) (words : list WordInfo) : GroupState :=
  fold_left group_step words gs.

(** The group flushed after the loop, if words remain. *)
Definition flush_group (words : list WordInfo) (gs : GroupState) : list Group :=
  match pending gs with
  | [] => []
  | _ :: _ =>
      let start := first_start (pending gs) in
      [mkGroup (pending gs) start
               (dict_get (wi_end (last words no_word)) (start + 2))]
  end.

(** Groups of one transcription segment that has word-level timings. *)
Definition word_groups (words : list WordInfo) : list Group :=
  let gs := group_loop (mkGroups [] []) words in
  closed gs ++ flush_group words gs.

End SegmentGroups.

(** Groups of a transcription segment; none on the fallback path. *)
Definition segment_groups (max_words_per_segment : Z) (max_subtitle_duration : Q)
    (segment : Segment) : list Group :=
  word_groups max_words_per_segment max_subtitle_duration
              (dict_get (seg_words segment) []).

(** The segment emitted on the fallback path, if any. *)
Definition fallback_subtitle (segment : Segment) : list Subtitle :=
  if nonempty (dict_get (seg_words segment) []) then []
  else if nonempty (strip (dict_get (seg_text segment) [])) then
    [mkSubtitle (clean_subtitle_text (strip (dict_get (seg_text segment) [])))
                (dict_get (seg_start segment) 0)
                (dict_get (seg_end segment) 0)
                (dict_get (seg_end segment) 0 - dict_get (seg_start segment) 0)]
  else [].

(** Every word of [buffer] ends within [limit] of the start [start]. *)
Definition within (limit start : Q) (buffer : list WordInfo) : Prop :=
  forall w, In w buffer -> word_end w - start <= limit.

(** The loop variables are those of the group loop, rendered, after the
    segments [out] emitted before the loop was entered. *)
Definition simulates (out : list Subtitle) (st : LoopState) (gs : GroupState) : Prop :=
  current_segment st = map word_text (pending gs) /\
  current_start st = match pending gs with
                     | [] => None
                     | _ :: _ => Some (first_start (pending gs))
                     end /\
  subtitle_segments st = out ++ map render (closed gs).

(** What the loop guarantees of a closed group: it is not empty, made of
    words with text, starts with its first word, ends with its last word,
    and every word but the last ends within [limit] of the start. *)
Definition closed_group (limit : Q) (g : Group) : Prop :=
  g_words g <> [] /\
  forallb has_text (g_words g) = true /\
  g_start g = first_start (g_words g) /\
  g_end g = word_end (last (g_words g) no_word) /\
  within limit (g_start g) (removelast (g_words g)).

(** The same of the group flushed after the loop over [words]: every
    word of it ends within [limit] of the start, and the end is read from
    the last entry of [words]. *)
Definition flushed_group (limit : Q) (words : list WordInfo) (g : Group) : Prop :=
  g_words g <> [] /\
  forallb has_text (g_words g) = true /\
  g_start g = first_start (g_words g) /\
  g_end g = dict_get (wi_end (last words no_word)) (g_start g + 2) /\
  within limit (g_start g) (g_words g).

(** Loop invariant for the word count. *)
Definition counted (max_words : Z) (gs : GroupState) : Prop :=
  (Z.of_nat (List.length (pending gs)) < max_words)%Z /\
  Forall (fun g => (1 <= List.length (g_words g))%nat
                   /\ (Z.of_nat (List.length (g_words g)) <= max_words)%Z)
         (closed gs).

(** Loop invariant for the duration limit. *)
Definition limited (limit : Q) (gs : GroupState) : Prop :=
  forallb has_text (pending gs) = true /\
  within limit (first_start (pending gs)) (pending gs) /\
  Forall (closed_group limit) (closed gs).

(** The words of a transcription segment that take part in the grouping. *)
Definition spoken (words : list WordInfo) : list WordInfo := filter has_text words.

Definition drop_empty_words (segment : Segment) : Segment :=
  mkSegment (option_map spoken (seg_words segment))
            (seg_text segment) (seg_start segment) (seg_end segment).

(** Start times offered by the input, in input order: one per word with
    text, or the segment's own start on the fallback path. *)
Definition segment_starts (segment : Segment) : list Q :=
  match dict_get (seg_words segment) [] with
  | [] => if nonempty (strip (dict_get (seg_text segment) []))
          then [dict_get (seg_start segment) 0] else []
  | words => map word_start (spoken words)
  end.

Definition input_starts (segments : list Segment) : list Q :=
  flat_map segment_starts segments.

(** [l1] is [l2] with some elements left out. *)
Inductive Subseq {A : Type} : list A -> list A -> Prop :=
| Subseq_nil : Subseq [] []
| Subseq_skip x l1 l2 : Subseq l1 l2 -> Subseq l1 (x :: l2)
| Subseq_keep x l1 l2 : Subseq l1 l2 -> Subseq (x :: l1) (x :: l2).

(** Non-decreasing sequence of time stamps. *)
Definition chronological (l : list Q) : Prop := StronglySorted Qle l.

(** ** Sample inputs *)

Definition chars (s : string) : str := list_ascii_of_string s.

Definition timed_word (s : string) (start_time end_time : Q) : WordInfo :=
  mkWord (Some (chars s)) (Some start_time) (Some end_time).

Definition word_segment (words : list WordInfo) : Segment :=
  mkSegment (Some words) None None None.

(** The scenario of the specification: six words, at most three a segment. *)
Definition hello_words : list WordInfo :=
  [timed_word " Hello" 0 (1 # 10); timed_word " world." (1 # 10) (2 # 10);
   timed_word " This" (2 # 10) (3 # 10); timed_word " is" (3 # 10) (4 # 10);
   timed_word " a" (4 # 10) (5 # 10); timed_word " test" (5 # 10) (6 # 10)].

(** Two words whose time stamps run backwards. *)
Definition unordered_words : list WordInfo :=
  [timed_word "later" 5 6; timed_word "sooner" 1 2].


(** A word followed by a blank token that ends later. *)
Definition trailing_blank_words : list WordInfo :=
  [timed_word "hi" 0 (1 # 2); timed_word " " (1 # 2) (9 # 10)].

(** The last word of every transcription segment, if any, has text. *)
Definition ends_with_text (segment : Segment) : Prop :=
  dict_get (seg_words segment) [] = []
  \/ has_text (last (dict_get (seg_words segment) []) no_word) = true.

(** ** Text clean-up, as the specification words it

    One pass that leaves out each space standing immediately before one of
    the given marks. *)
Fixpoint drop_space_before (marks : list ascii) (s : str) : str :=
  match s with
  | [] => []
  | c :: s' =>
      if Ascii.eqb c SPACE
         && match s' with
            | d :: _ => existsb (Ascii.eqb d) marks
            | [] => false
            end
      then drop_space_before marks s'
      else c :: drop_space_before marks s'
  end.

Definition marks : list ascii := [COMMA; DOT; BANG; QUESTION].

Definition clean_spec (text : str) : str :=
  drop_space_before marks (capitalize_first (collapse_whitespace text)).

(** Some space stands immediately before the mark [p]. *)
Fixpoint space_before (p : ascii) (s : str) : bool :=
  match s with
  | [] => false
  | c :: s' =>
      (Ascii.eqb c SPACE
       && match s' with
          | d :: _ => Ascii.eqb d p
          | [] => false
          end)
      || space_before p s'
  end.

(** Shape of a text whose words are separated by single spaces: no white
    space other than the space, no space at either end, no two spaces in a
    row.  [norm_after b s] reads [s] knowing whether a character that is
    not a space stands before it. *)
Fixpoint norm_after (inked : bool) (s : str) : bool :=
  match s with
  | [] => inked
  | c :: s' =>
      if isspace c then inked && Ascii.eqb c SPACE && norm_after false s'
      else norm_after true s'
  end.

Definition norm (s : str) : bool :=
  match s with
  | [] => true
  | _ :: _ => norm_after false s
  end.

(** A word as [split] yields them: non-empty, free of white space. *)
Definition token (t : str) : bool :=
  nonempty t && forallb (fun c => negb (isspace c)) t.

(** Upper-casing the first character changes nothing. *)
Definition capitalized (s : str) : Prop := capitalize_first s = s.

(** Python's [bool(s)] of a string holding a visible character. *)
Definition has_ink (s : str) : bool := existsb (fun c => negb (isspace c)) s.

(** Every buffered word holds a visible character. *)
Definition inked (ws : list str) : Prop := Forall (fun w => has_ink w = true) ws.

(** Every emitted segment has text. *)
Definition worded (out : list Subtitle) : Prop :=
  Forall (fun sub => sub_text sub <> []) out.

(** ** Composer: handle life cycle of [VideoComposer.compose_video] *)

Inductive Handle := VideoClip | AudioClip | FinalVideo.

Definition Handle_eqb (a b : Handle) : bool :=
  match a, b with
  | VideoClip, VideoClip | AudioClip, AudioClip | FinalVideo, FinalVideo => true
  | _, _ => false
  end.

(** What the collaborators do during one call: which loads and exports go
    through, and whether the split branch is taken. *)
Record Env := mkEnv {
  video_loads     : bool;   (* [VideoFileClip(background_video_path)] *)
  audio_loads     : bool;   (* [AudioFileClip(audio_path)] *)
  background_fits : bool;   (* [_process_background_video] *)
  output_path_ok  : bool;   (* [_generate_output_path] *)
  must_split      : bool;   (* [SPLIT_LONG_VIDEOS and target_duration > MAX_VIDEO_DURATION] *)
  export_ok       : bool    (* [_split_and_export_video] or [write_videofile] *)
}.

(** Handles created, and handles on which [close()] was called. *)
Record Handles := mkHandles {
  loaded   : list Handle;
  released : list Handle
}.

Inductive Outcome (A : Type) :=
| Returned (a : A)
| Raised.
Arguments Returned {A} a.
Arguments Raised {A}.

Inductive Artifact := SinglePath | PartPaths.

Module Exn.

(** State and exception monad of the method body. *)
Definition M (A : Type) : Type := Handles -> Outcome A * Handles.

Definition ret {A} (a : A) : M A := fun h => (Returned a, h).

Definition bind {A B} (m : M A) (k : A -> M B) : M B :=
  fun h => match m h with
           | (Returned a, h') => k a h'
           | (Raised, h') => (Raised, h')
           end.

Definition raise {A} : M A := fun h => (Raised, h).

(** [try: body  except Exception: handler; raise] *)
Definition try_reraise {A} (body : M A) (handler : M unit) : M A :=
  fun h => match body h with
           | (Returned a, h') => (Returned a, h')
           | (Raised, h') => (Raised, snd (handler h'))
           end.

(** A constructor that either fails or yields the handle [x]. *)
Definition load (x : Handle) (ok : bool) : M unit :=
  fun h => if ok then (Returned tt, mkHandles (loaded h ++ [x]) (released h))
           else (Raised, h).

(** A call that either fails or returns, without touching the handles. *)
Definition call (ok : bool) : M unit :=
  fun h => if ok then (Returned tt, h) else (Raised, h).

Definition close (x : Handle) : M unit :=
  fun h => (Returned tt, mkHandles (loaded h) (released h ++ [x])).

End Exn.

Notation "m ;; k" := (Exn.bind m (fun _ => k))
  (at level 61, right associativity).

(** [handle_api_error]: writes a log line. *)
Definition handle_api_error : Exn.M unit := Exn.ret tt.

(** The optional subtitle overlay is wrapped in its own [try]/[except] that
    swallows every failure, so it never changes the control flow below.
    The handles followed are the three that [compose_video] holds itself;
    the sub-clips that the splitter opens and closes inside its loop are
    its own.  The limit [MAX_VIDEO_DURATION] is taken to be a number. *)
Definition compose_video (env : Env) : Exn.M Artifact :=
  Exn.try_reraise
    (Exn.load VideoClip (video_loads env) ;;
     Exn.load AudioClip (audio_loads env) ;;
     Exn.call (background_fits env) ;;
     Exn.load FinalVideo true ;;
     Exn.call (output_path_ok env) ;;
     if must_split env then
       Exn.call (export_ok env) ;;
       Exn.close VideoClip ;;
       Exn.close AudioClip ;;
       Exn.close FinalVideo ;;
       Exn.ret PartPaths
     else
       Exn.call (export_ok env) ;;
       Exn.close VideoClip ;;
       Exn.close AudioClip ;;
       Exn.close FinalVideo ;;
       Exn.ret SinglePath)
    handle_api_error.

Definition no_handles : Handles := mkHandles [] [].

(** Every handle created has been closed. *)
Definition all_released (h : Handles) : bool :=
  forallb (fun x => existsb (Handle_eqb x) (released h)) (loaded h).

(** Both files load and the background fits, but writing the video file
    fails (no split). *)
Definition export_failure : Env := mkEnv true true true true false false.

(** The segment of a single word. *)
Definition single_word_group (w : WordInfo) : Group :=
  mkGroup [w] (word_start w) (word_end w).

(** The word does not end a sentence. *)
Definition mid_sentence (w : WordInfo) : Prop :=
  is_sentence_end (word_text w) = false.


(** A transcription segment whose word list holds only blank tokens. *)
Definition blank_words : list WordInfo :=
  [timed_word " " 0 (1 # 2); timed_word "  " (1 # 2) 1].

(** ** Caption time stamps: [WhisperSubtitles._seconds_to_srt_time] *)

(** [str(n)] of an int: its decimal digits, after a minus sign when it is
    negative. *)
Definition str_of_int (n : Z) : str :=
  list_ascii_of_string (NilEmpty.string_of_int (Z.to_int n)).

Definition zfill (width : nat) (digits : str) : str :=
  repeat (ch 48) (width - List.length digits) ++ digits.

(** [f"{n:0<width>d}"]: zero padding between the sign and the digits, up
    to [width] characters in all. *)
Definition format_0d (width : nat) (n : Z) : str :=
  if (n <? 0)%Z then ch 45 :: zfill (width - 1) (str_of_int (- n))
  else zfill width (str_of_int n).

(** [x // y] on floats, for [y <> 0]. *)
Definition floordiv (x y : Q) : Q := inject_Z (Qfloor (x / y)).

Record SrtTime := mkSrtTime {
  srt_hours        : Z;
  srt_minutes      : Z;
  srt_secs         : Z;
  srt_milliseconds : Z
}.

(** The four integers the method computes, with [//], [%] and the product
    read as exact. *)
Definition srt_fields (seconds : Q) : SrtTime :=
  let hours := Py.int (floordiv seconds 3600) in
  let minutes := Py.int (floordiv (Py.fmod seconds 3600) 60) in
  let secs := Py.int (Py.fmod seconds 60) in
  let milliseconds := Py.int (Py.fmod seconds 1 * 1000) in
  mkSrtTime hours minutes secs milliseconds.

Definition COLON : ascii := ch 58.
Definition NEWLINE : ascii := ch 10.

(** [f"{hours:02d}:{minutes:02d}:{secs:02d},{milliseconds:03d}"] *)
Definition seconds_to_srt_time (seconds : Q) : str :=
  let t := srt_fields seconds in
  format_0d 2 (srt_hours t) ++ [COLON] ++ format_0d 2 (srt_minutes t) ++ [COLON]
  ++ format_0d 2 (srt_secs t) ++ [COMMA] ++ format_0d 3 (srt_milliseconds t).

(** ** Caption file: what [WhisperSubtitles.export_srt] writes *)

(** The three [f.write] calls for the segment numbered [i]. *)
Definition srt_block (i : Z) (segment : Subtitle) : str :=
  (str_of_int i ++ [NEWLINE])
  ++ (seconds_to_srt_time (sub_start segment) ++ chars " --> "
      ++ seconds_to_srt_time (sub_end segment) ++ [NEWLINE])
  ++ (sub_text segment ++ [NEWLINE; NEWLINE]).

(** [for i, segment in enumerate(subtitle_segments, i)] *)
Fixpoint srt_blocks (i : Z) (subtitle_segments : list Subtitle) : str :=
  match subtitle_segments with
  | [] => []
  | segment :: rest => srt_block i segment ++ srt_blocks (i + 1) rest
  end.

Definition export_srt (subtitle_segments : list Subtitle) : str :=
  srt_blocks 1 subtitle_segments.

(** ** File names *)

(** [s.endswith(suffix)] *)
Definition endswith (suffix s : str) : bool := startswith (rev suffix) (rev s).

(** [utils.generate_timestamped_filename]; [timestamp] is the
    [strftime('%Y%m%d_%H%M%S')] of the clock.  An empty [post_id] counts as
    none. *)
Definition generate_timestamped_filename
    (prefix extension : str) (post_id : option str) (timestamp : str) : str :=
  if nonempty (dict_get post_id []) then
    prefix ++ chars "_" ++ dict_get post_id [] ++ chars "_" ++ timestamp
    ++ chars "." ++ extension
  else prefix ++ chars "_" ++ timestamp ++ chars "." ++ extension.

(** The file name chosen by [VideoComposer._generate_output_path], before
    it is joined to the output directory. *)
Definition output_filename (custom_filename : option str) (timestamp : str) : str :=
  let filename :=
    if nonempty (dict_get custom_filename []) then dict_get custom_filename []
    else generate_timestamped_filename (chars "short_video") (chars "mp4") None
                                       timestamp in
  if negb (endswith (chars ".mp4") filename) then filename ++ chars ".mp4"
  else filename.

(** [f"{base_name}_part{part_num + 1}.mp4"] *)
Definition part_filename (base_name : str) (part_num : Z) : str :=
  base_name ++ chars "_part" ++ str_of_int (part_num + 1) ++ chars ".mp4".

(** [f'temp-audio-part{part_num + 1}.m4a'] *)
Definition temp_audiofile (part_num : Z) : str :=
  chars "temp-audio-part" ++ str_of_int (part_num + 1) ++ chars ".m4a".

(** The [output_paths] returned by [_split_and_export_video] when every
    export goes through. *)
Definition split_output_paths (base_name : str) (total_duration max_duration : Q)
  : option (list str) :=
  if Qeq_bool max_duration 0 then None
  else Some (map (part_filename base_name)
                 (Py.range (num_parts total_duration max_duration))).


(** The visible characters of a text, in order. *)
Definition ink (s : str) : str := filter (fun c => negb (isspace c)) s.

(** [str.isascii()]: every character is below code 128. *)
Definition isascii (s : str) : bool :=
  forallb (fun c => (nat_of_ascii c <? 128)%nat) s.

(** ** Facts on the numeric primitives *)

Lemma int_floor_nonneg (x : Q) : 0 <= x -> Py.int x = Qfloor x.
Proof.
  destruct x as [n d]; unfold Py.int, Qfloor, Qle; simpl; intros H.
  rewrite Z.mul_1_r in H.
  apply Z.quot_div_nonneg; lia.
Qed.

Lemma floor_bounds (x : Q) :
  inject_Z (Qfloor x) <= x /\ x < inject_Z (Qfloor x) + 1.
Proof.
  split; [apply Qfloor_le|].
  generalize (Qlt_floor x); rewrite inject_Z_plus; auto.
Qed.

Lemma ceiling_bounds (x : Q) :
  x <= inject_Z (Qceiling x) /\ inject_Z (Qceiling x) - 1 < x.
Proof.
  split; [apply Qle_ceiling|].
  generalize (Qceiling_lt x).
  unfold Z.sub; rewrite inject_Z_plus; auto.
Qed.

Lemma inject_Z_lt_inv (a b : Z) : inject_Z a < inject_Z b -> (a < b)%Z.
Proof. rewrite <- Zlt_Qlt; auto. Qed.

(** Division by a positive number, as two inequalities on products. *)
Lemma div_mul_le (x y k : Q) : 0 < y -> (k <= x / y <-> k * y <= x).
Proof.
  intros Hy; split; intros H.
  - setoid_replace x with ((x / y) * y) by (field; lra).
    apply Qmult_le_compat_r; lra.
  - apply Qle_shift_div_l; auto.
Qed.

Lemma div_mul_lt (x y k : Q) : 0 < y -> (x / y < k <-> x < k * y).
Proof.
  intros Hy; split; intros H.
  - setoid_replace x with ((x / y) * y) by (field; lra).
    apply Qmult_lt_compat_r; lra.
  - apply Qlt_shift_div_r; auto.
Qed.

Lemma div_le_mul (x y k : Q) : 0 < y -> (x / y <= k <-> x <= k * y).
Proof.
  intros Hy; split; intros H.
  - setoid_replace x with ((x / y) * y) by (field; lra).
    apply Qmult_le_compat_r; lra.
  - apply Qle_shift_div_r; auto.
Qed.

Lemma ceiling_unique (x : Q) (c : Z) :
  inject_Z c - 1 < x -> x <= inject_Z c -> Qceiling x = c.
Proof.
  intros H1 H2. destruct (ceiling_bounds x) as [H3 H4].
  assert (inject_Z (Qceiling x) < inject_Z (c + 1)) by (rewrite inject_Z_plus; change (inject_Z 1) with 1; lra).
  assert (inject_Z c < inject_Z (Qceiling x + 1)) by (rewrite inject_Z_plus; change (inject_Z 1) with 1; lra).
  apply inject_Z_lt_inv in H, H0. lia.
Qed.

Lemma floor_unique (x : Q) (c : Z) :
  inject_Z c <= x -> x < inject_Z c + 1 -> Qfloor x = c.
Proof.
  intros H1 H2. destruct (floor_bounds x) as [H3 H4].
  assert (A : inject_Z (Qfloor x) < inject_Z (c + 1))
    by (rewrite inject_Z_plus; change (inject_Z 1) with 1; lra).
  assert (B : inject_Z c < inject_Z (Qfloor x + 1))
    by (rewrite inject_Z_plus; change (inject_Z 1) with 1; lra).
  apply inject_Z_lt_inv in A, B. lia.
Qed.

Lemma num_parts_ceiling (total maxd : Q) :
  0 < maxd -> 0 <= total -> num_parts total maxd = Qceiling (total / maxd).
Proof.
  intros Hm Ht. unfold num_parts.
  assert (Hx : 0 <= total / maxd) by (apply Qle_shift_div_l; lra).
  rewrite (int_floor_nonneg _ Hx).
  destruct (floor_bounds (total / maxd)) as [F1 F2].
  set (f := Qfloor (total / maxd)) in *.
  apply (div_mul_le total maxd (inject_Z f) Hm) in F1.
  apply (div_mul_lt total maxd (inject_Z f + 1) Hm) in F2.
  symmetry. unfold Py.fmod. fold f.
  destruct (Qlt_le_dec 0 (total - maxd * inject_Z f)) as [Hr | Hr].
  - apply ceiling_unique; rewrite inject_Z_plus; change (inject_Z 1) with 1.
    + setoid_replace (inject_Z f + 1 - 1) with (inject_Z f) by ring.
      apply Qlt_shift_div_l; lra.
    + apply Qle_shift_div_r; lra.
  - rewrite Z.add_0_r. apply ceiling_unique.
    + apply Qlt_shift_div_l; lra.
    + apply Qle_shift_div_r; lra.
Qed.


(** ** Facts on binary64 rounding *)

Lemma rne_ge (y : Q) (K : Z) : inject_Z K <= y -> (K <= rne y)%Z.
Proof.
  intros H. assert (HK : (K <= Qfloor y)%Z).
  { apply Z.lt_succ_r, inject_Z_lt_inv.
    destruct (floor_bounds y) as [_ Hf].
    unfold Z.succ. rewrite inject_Z_plus. change (inject_Z 1) with 1. lra. }
  unfold rne. destruct (Qcompare _ _); [destruct (Z.even _)| |]; lia.
Qed.

Lemma rne_le (y : Q) (K : Z) : y <= inject_Z K -> (rne y <= K)%Z.
Proof.
  intros H. destruct (floor_bounds y) as [Hlo Hhi].
  assert (HK : (Qfloor y <= K)%Z).
  { rewrite Zle_Qle. lra. }
  assert (Hup : 0 < y - inject_Z (Qfloor y) -> (Qfloor y + 1 <= K)%Z).
  { intros Hr. apply Z.le_succ_l, inject_Z_lt_inv. lra. }
  unfold rne. destruct (Qcompare _ _) eqn:E.
  - apply Qeq_alt in E. destruct (Z.even _); [lia|]. apply Hup. lra.
  - lia.
  - apply Qgt_alt in E. apply Hup. lra.
Qed.

Lemma ilog2_below_53 (y : Q) :
  0 < y -> y < inject_Z (2 ^ 53) -> (ilog2 y <= 52)%Z.
Proof.
  intros Hpos Hlt. unfold ilog2. destruct (Qle_bool 1 y) eqn:E.
  - apply Qle_bool_iff in E. destruct (floor_bounds y) as [Hlo Hhi].
    assert (H1 : (1 <= Qfloor y)%Z).
    { apply Z.lt_succ_r, inject_Z_lt_inv. unfold Z.succ.
      rewrite inject_Z_plus. change (inject_Z 1) with 1. lra. }
    assert (H2 : (Qfloor y < 2 ^ 53)%Z) by (apply inject_Z_lt_inv; lra).
    apply Z.lt_succ_r. apply Z.log2_lt_pow2; lia.
  - pose proof (Z.log2_up_nonneg (Qceiling (/ y))). lia.
Qed.

Lemma pow2_nonpos (e : Z) : (e <= 0)%Z -> exists s : positive, pow2 e = 1 # s.
Proof.
  destruct e as [|p|p]; intros H.
  - exists 1%positive. reflexivity.
  - lia.
  - exists (2 ^ p)%positive. reflexivity.
Qed.

Lemma ulp_exponent_nonpos (x : Q) :
  0 < x -> x < inject_Z (2 ^ 53) -> (ulp_exponent x <= 0)%Z.
Proof.
  intros Hpos Hlt. unfold ulp_exponent.
  assert (Ha : Qabs x == x) by (apply Qabs_pos; lra).
  assert (H : (ilog2 (Qabs x) <= 52)%Z)
    by (apply ilog2_below_53; rewrite Ha; assumption).
  lia.
Qed.

Lemma scaled_unit (x : Q) (s : positive) : x / (1 # s) == x * inject_Z (Zpos s).
Proof.
  unfold Qdiv. change (/ (1 # s)) with (inject_Z (Zpos s)). reflexivity.
Qed.

Lemma unit_scaled (k : Z) (s : positive) :
  inject_Z (k * Zpos s) * (1 # s) == inject_Z k.
Proof.
  unfold Qeq, inject_Z, Qmult; simpl. lia.
Qed.

(** Below [2 ** 53] the spacing of the floats is at most 1: rounding never
    carries a positive number across a whole number. *)
Lemma b64_keeps_integer_bounds (x : Q) (k : Z) :
  0 < x -> x < inject_Z (2 ^ 53) ->
  (inject_Z k <= x -> inject_Z k <= b64 x) /\
  (x <= inject_Z k -> b64 x <= inject_Z k).
Proof.
  intros Hpos Hlt. unfold b64.
  destruct (Qeq_bool x 0) eqn:E; [apply Qeq_bool_iff in E; lra|].
  destruct (pow2_nonpos _ (ulp_exponent_nonpos x Hpos Hlt)) as [s Hs].
  cbv zeta. rewrite Hs.
  assert (Hs0 : 0 < inject_Z (Zpos s)) by reflexivity.
  assert (Hu : 0 <= 1 # s) by discriminate.
  split; intros H.
  - rewrite <- (unit_scaled k s).
    apply Qmult_le_compat_r; [|exact Hu].
    rewrite <- Zle_Qle. apply rne_ge.
    rewrite scaled_unit, inject_Z_mult.
    apply Qmult_le_compat_r; lra.
  - rewrite <- (unit_scaled k s).
    apply Qmult_le_compat_r; [|exact Hu].
    rewrite <- Zle_Qle. apply rne_le.
    rewrite scaled_unit, inject_Z_mult.
    apply Qmult_le_compat_r; lra.
Qed.

Lemma b64_floor_ceiling (x : Q) :
  0 < x -> x < inject_Z (2 ^ 53) ->
  (Qfloor x <= Py.int (b64 x) <= Qceiling x)%Z.
Proof.
  intros Hpos Hlt.
  destruct (floor_bounds x) as [Hf _]. destruct (ceiling_bounds x) as [Hc _].
  destruct (b64_keeps_integer_bounds x (Qfloor x) Hpos Hlt) as [Hlo _].
  destruct (b64_keeps_integer_bounds x (Qceiling x) Hpos Hlt) as [_ Hhi].
  specialize (Hlo Hf). specialize (Hhi Hc).
  assert (H0 : 0 <= b64 x).
  { destruct (b64_keeps_integer_bounds x 0 Hpos Hlt) as [H _].
    apply H. change (inject_Z 0) with 0. lra. }
  rewrite int_floor_nonneg by exact H0.
  split.
  - apply Z.lt_succ_r, inject_Z_lt_inv.
    destruct (floor_bounds (b64 x)) as [_ Hb].
    unfold Z.succ. rewrite inject_Z_plus. change (inject_Z 1) with 1. lra.
  - rewrite Zle_Qle. destruct (floor_bounds (b64 x)) as [Hb _]. lra.
Qed.

(** ** Part Splitter *)

(** C1.  The float arithmetic of the part count can add a part.  For a
    video of 179.7 s under a limit of 59.9 s the quotient of the two floats
    rounds to 3.0 while their remainder is positive: the splitter makes four
    parts where [ceil(total / max)] is three, and the fourth starts and ends
    at the end of the video. *)
Theorem split_adds_empty_part :
  let total_duration := float_literal 1797 10 in
  let max_duration := float_literal 599 10 in
  0 < max_duration /\ max_duration < total_duration /\
  Qceiling (total_duration / max_duration) = 3%Z /\
  B64.div total_duration max_duration == 3 /\
  0 < B64.rem total_duration max_duration /\
  B64.num_parts total_duration max_duration = 4%Z /\
  exists p1 p2 p3 p4,
    B64.split_and_export_video total_duration max_duration
      = Some [p1; p2; p3; p4] /\
    part_index p4 = 4%Z /\
    part_start p4 == total_duration /\ part_end p4 == total_duration.
Proof.
  cbv zeta.
  split; [vm_compute; reflexivity|].
  split; [vm_compute; reflexivity|].
  split; [vm_compute; reflexivity|].
  split; [vm_compute; reflexivity|].
  split; [vm_compute; reflexivity|].
  split; [vm_compute; reflexivity|].
  unfold B64.split_and_export_video.
  replace (Qeq_bool (float_literal 599 10) 0) with false by (vm_compute; reflexivity).
  replace (B64.num_parts (float_literal 1797 10) (float_literal 599 10)) with 4%Z
    by (vm_compute; reflexivity).
  cbn [Py.range Z.to_nat Pos.to_nat Pos.iter_op Nat.add seq map].
  do 4 eexists. split; [reflexivity|].
  split; [reflexivity|]. split; vm_compute; reflexivity.
Qed.

(** ** Frame Fitter *)

(** C5.  The float arithmetic of the scaled height can miss a pixel row.
    For a target of 1440 x 2560 and a source of 1440 x 2561 the source is
    taller than the target, [new_height] comes out as
    [int(2560.9999999999995)], which is 2560 and not above the target
    height, and no crop is applied: the frame, resized to the target width
    at its own ratio, keeps its 2561 rows. *)
Theorem fit_geometry_leaves_tall_frame :
  B64.fit_geometry 1440 2560 1440 2561 = Some (mkGeometry 1440 2560 None None) /\
  B64.div (B64.of_int 1440) (B64.div 1440 2561) < 2561 /\
  resized_height 1440 1440 2561 == 2561.
Proof. split; [|split]; vm_compute; reflexivity. Qed.

Lemma ceiling_minimal_cover (duration target_duration : Q) :
  0 < duration ->
  minimal_cover duration target_duration (Qceiling (target_duration / duration)).
Proof.
  intros Hd. destruct (ceiling_bounds (target_duration / duration)) as [Hhi Hlo].
  split.
  - apply div_le_mul; assumption.
  - intros m Hm. apply (div_le_mul target_duration duration) in Hm.
    2: exact Hd.
    assert (H : inject_Z (Qceiling (target_duration / duration)) < inject_Z (m + 1)).
    { rewrite inject_Z_plus. change (inject_Z 1) with 1. lra. }
    apply inject_Z_lt_inv in H. lia.
Qed.

(** C4, as stated, fails when the target is a whole multiple of the source
    duration: a 10 s source under a 20 s target is looped 3 times, while 2
    loops already last 20 s. *)
Lemma loop_count_not_minimal :
  B64.fit_duration 10 20 0 = Some (LoopThenTrim 3 0 20) /\
  ~ minimal_cover 10 20 3.
Proof.
  split; [reflexivity|].
  intros [_ Hmin]. specialize (Hmin 2%Z).
  assert (H : (3 <= 2)%Z) by (apply Hmin; vm_compute; discriminate).
  lia.
Qed.

(** C4, amended.  A source of positive duration shorter than the target
    (their quotient below [2 ** 53]) is looped [int(target / source) + 1]
    times, the quotient being a float.  That count is the minimum whole
    number of loops that reaches the target or one more than it, and always
    one more when the target is a whole multiple of the source duration; so
    the loops together last strictly longer than the target.  The looped
    stream is then cut to the window from 0 to the target duration. *)
Theorem loop_count_covers (duration target_duration u : Q) :
  0 < duration -> duration < target_duration ->
  target_duration < inject_Z (2 ^ 53) * duration ->
  exists n m : Z,
    B64.fit_duration duration target_duration u
      = Some (LoopThenTrim n 0 target_duration) /\
    n = (Py.int (B64.div target_duration duration) + 1)%Z /\
    minimal_cover duration target_duration m /\
    (m <= n <= m + 1)%Z /\
    target_duration < inject_Z n * duration /\
    (forall k : Z, target_duration == inject_Z k * duration -> n = (k + 1)%Z).
Proof.
  intros Hd Hlt Hbig.
  set (x := target_duration / duration).
  assert (Hx0 : 0 < x) by (apply Qlt_shift_div_l; lra).
  assert (Hx53 : x < inject_Z (2 ^ 53)) by (apply Qlt_shift_div_r; assumption).
  destruct (b64_floor_ceiling x Hx0 Hx53) as [Hlo Hhi].
  destruct (floor_bounds x) as [Hf1 Hf2].
  destruct (ceiling_bounds x) as [Hc1 Hc2].
  exists (Py.int (B64.div target_duration duration) + 1)%Z, (Qceiling x).
  unfold B64.div. fold x.
  assert (Hfc : (Qceiling x <= Qfloor x + 1)%Z).
  { apply Z.lt_succ_r, inject_Z_lt_inv. unfold Z.succ.
    rewrite !inject_Z_plus. change (inject_Z 1) with 1. lra. }
  split; [|split; [|split; [|split; [|split]]]].
  - unfold B64.fit_duration.
    destruct (Qlt_le_dec duration target_duration) as [_|Hge]; [|lra].
    destruct (Qeq_bool duration 0) eqn:E; [apply Qeq_bool_iff in E; lra|].
    reflexivity.
  - reflexivity.
  - apply ceiling_minimal_cover. exact Hd.
  - lia.
  - apply div_mul_lt; [exact Hd|]. fold x.
    assert (H : inject_Z (Qfloor x + 1) <= inject_Z (Py.int (b64 x) + 1))
      by (rewrite <- Zle_Qle; lia).
    rewrite inject_Z_plus in H. change (inject_Z 1) with 1 in H. lra.
  - intros k Hk.
    assert (Hxk : x == inject_Z k).
    { unfold x. rewrite Hk. field. lra. }
    assert (Hfk : Qfloor x = k).
    { apply floor_unique; rewrite Hxk; lra. }
    assert (Hck : (Qceiling x <= k)%Z).
    { apply Z.lt_succ_r, inject_Z_lt_inv. unfold Z.succ.
      rewrite inject_Z_plus. change (inject_Z 1) with 1. lra. }
    lia.
Qed.

Lemma loop_count_covers_witness :
  exists n m : Z,
    B64.fit_duration 10 15 0 = Some (LoopThenTrim n 0 15) /\
    minimal_cover 10 15 m /\ (m <= n <= m + 1)%Z /\ 15 < inject_Z n * 10.
Proof.
  destruct (loop_count_covers 10 15 0) as (n & m & H1 & _ & H2 & H3 & H4 & _);
    [reflexivity | reflexivity | reflexivity |].
  exists n, m. split; [exact H1|]. split; [exact H2|]. split; [exact H3 | exact H4].
Defined.

(** The extra loop also comes from rounding: a source of 59.9 s under a
    target of 179.7 s is looped 4 times, the quotient of the two floats
    being 3.0, while 3 loops already last longer than the target. *)
Lemma loop_count_rounded_up :
  (B64.fit_duration (float_literal 599 10) (float_literal 1797 10) 0
   = Some (LoopThenTrim 4 0 (float_literal 1797 10))) /\
  float_literal 1797 10 < 3 * float_literal 599 10.
Proof. split; vm_compute; reflexivity. Qed.

(** ** Characters *)

Ltac each_char c :=
  destruct c as [[|] [|] [|] [|] [|] [|] [|] [|]]; vm_compute; try reflexivity;
  try discriminate; try tauto.

Lemma isspace_upper (c : ascii) : isspace (upper c) = isspace c.
Proof. each_char c. Qed.

Lemma upper_upper (c : ascii) : upper (upper c) = upper c.
Proof. each_char c. Qed.

Lemma islower_upper (c : ascii) : islower (upper c) = false.
Proof. each_char c. Qed.

Lemma space_is_space (c : ascii) : Ascii.eqb c SPACE = true -> isspace c = true.
Proof. intros H. apply Ascii.eqb_eq in H. subst c. reflexivity. Qed.

Lemma ink_not_space (c : ascii) : isspace c = false -> Ascii.eqb c SPACE = false.
Proof.
  intros H. destruct (Ascii.eqb c SPACE) eqn:E; [|reflexivity].
  apply space_is_space in E. congruence.
Qed.

(** ** [split] and [join] *)

Lemma split_ink_cons (c : ascii) (s : str) :
  isspace c = false -> exists t ts, split (c :: s) = (c :: t) :: ts.
Proof.
  intros Hc. simpl. rewrite Hc. destruct s as [|d s'].
  - exists [], []. reflexivity.
  - destruct (isspace d).
    + eexists [], _. reflexivity.
    + destruct (split (d :: s')) as [|t ts]; [exists [], [] | exists t, ts]; reflexivity.
Qed.

Lemma split_space_cons (c : ascii) (s : str) :
  isspace c = true -> split (c :: s) = split s.
Proof. intros H. cbn [split]. rewrite H. reflexivity. Qed.

Lemma split_ink_space (c d : ascii) (s : str) :
  isspace c = false -> isspace d = true ->
  split (c :: d :: s) = [c] :: split (d :: s).
Proof. intros Hc Hd. cbn [split]. rewrite Hc, Hd. reflexivity. Qed.

Lemma split_ink_ink (c d : ascii) (s t : str) (ts : list str) :
  isspace c = false -> isspace d = false -> split (d :: s) = t :: ts ->
  split (c :: d :: s) = (c :: t) :: ts.
Proof.
  intros Hc Hd E. change (split (c :: d :: s)) with
    (if isspace c then split (d :: s)
     else if isspace d then [c] :: split (d :: s)
          else match split (d :: s) with
               | t :: ts => (c :: t) :: ts
               | [] => [[c]]
               end).
  rewrite Hc, Hd, E. reflexivity.
Qed.

Lemma join_cons_head (sep : str) (c : ascii) (t : str) (ts : list str) :
  join sep ((c :: t) :: ts) = c :: join sep (t :: ts).
Proof. simpl. destruct ts; reflexivity. Qed.

Lemma join_cons_cons (sep t u : str) (ts : list str) :
  join sep (t :: u :: ts) = t ++ sep ++ join sep (u :: ts).
Proof. reflexivity. Qed.

Lemma split_tokens (s : str) : forallb token (split s) = true.
Proof.
  induction s as [|c s IH]; [reflexivity|].
  cbn [split]. destruct (isspace c) eqn:Hc; [exact IH|].
  destruct s as [|d s'].
  - unfold token. simpl. rewrite Hc. reflexivity.
  - destruct (isspace d) eqn:Hd.
    + cbn [forallb]. rewrite IH. unfold token. simpl. rewrite Hc. reflexivity.
    + destruct (split (d :: s')) as [|t ts].
      * unfold token. simpl. rewrite Hc. reflexivity.
      * cbn [forallb] in *. apply andb_true_iff in IH. destruct IH as [Ht Hts].
        rewrite Hts. unfold token in *. cbn [nonempty forallb]. rewrite Hc.
        apply andb_true_iff in Ht. destruct Ht as [_ Ht]. rewrite Ht. reflexivity.
Qed.

Lemma norm_after_ink_app (b : bool) (t r : str) :
  token t = true -> norm_after b (t ++ r) = norm_after true r.
Proof.
  unfold token. intros H. apply andb_true_iff in H. destruct H as [Hne Hall].
  destruct t as [|c t]; [discriminate|]. clear Hne.
  revert b c Hall. induction t as [|d t IH]; intros b c Hall.
  - simpl in *. destruct (isspace c); [discriminate | reflexivity].
  - cbn [forallb] in Hall. apply andb_true_iff in Hall. destruct Hall as [Hc Hall].
    change ((c :: d :: t) ++ r) with (c :: ((d :: t) ++ r)).
    cbn [norm_after]. destruct (isspace c); [discriminate|].
    apply IH. exact Hall.
Qed.

Lemma norm_join (ts : list str) :
  forallb token ts = true -> ts <> [] -> norm_after false (join [SPACE] ts) = true.
Proof.
  induction ts as [|t ts IH]; intros Hall Hne; [congruence|].
  cbn [forallb] in Hall. apply andb_true_iff in Hall. destruct Hall as [Ht Hts].
  destruct ts as [|u ts].
  - simpl. rewrite <- (app_nil_r t), norm_after_ink_app by exact Ht. reflexivity.
  - rewrite join_cons_cons, norm_after_ink_app by exact Ht.
    change ([SPACE] ++ join [SPACE] (u :: ts)) with (SPACE :: join [SPACE] (u :: ts)).
    cbn [norm_after]. change (isspace SPACE) with true. cbv iota.
    rewrite Ascii.eqb_refl. apply IH; [exact Hts | discriminate].
Qed.

Lemma norm_collapse (s : str) : norm (collapse_whitespace s) = true.
Proof.
  unfold collapse_whitespace, norm.
  destruct (join [SPACE] (split s)) as [|c r] eqn:E; [reflexivity|].
  rewrite <- E. apply norm_join; [apply split_tokens|].
  intros H. rewrite H in E. discriminate.
Qed.

Lemma norm_after_false_inv (s : str) :
  norm_after false s = true ->
  exists c s', s = c :: s' /\ isspace c = false /\ norm_after true s' = true.
Proof.
  destruct s as [|c s']; [discriminate|]. cbn [norm_after].
  destruct (isspace c) eqn:Hc; [discriminate|].
  intros H. exists c, s'. auto.
Qed.

Lemma norm_after_weaken (b : bool) (s : str) :
  norm_after false s = true -> norm_after b s = true.
Proof.
  intros H. destruct (norm_after_false_inv _ H) as (c & s' & -> & Hc & Hs).
  cbn [norm_after]. rewrite Hc. exact Hs.
Qed.

(** On a normalised text [split] then [join] gives the text back, up to
    the single space it may start with when it follows a word. *)
Lemma join_split_norm_after (s : str) (b : bool) :
  norm_after b s = true ->
  join [SPACE] (split s) = match s with
                           | c :: s' => if isspace c then s' else s
                           | [] => []
                           end.
Proof.
  revert b. induction s as [|c s IH]; intros b H; [reflexivity|].
  cbn [norm_after] in H. destruct (isspace c) eqn:Hc.
  - apply andb_true_iff in H. destruct H as [_ H].
    rewrite (split_space_cons c s Hc), (IH _ H).
    destruct (norm_after_false_inv _ H) as (d & s' & -> & Hd & _).
    rewrite Hd. reflexivity.
  - destruct s as [|d s']; [cbn [split]; rewrite Hc; reflexivity|].
    specialize (IH _ H). destruct (isspace d) eqn:Hd.
    + cbn [norm_after] in H. rewrite Hd in H.
      apply andb_true_iff in H. destruct H as [H1 H2].
      apply andb_true_iff in H1. destruct H1 as [_ H1].
      apply Ascii.eqb_eq in H1. subst d.
      destruct (norm_after_false_inv _ H2) as (e & s'' & -> & He & _).
      rewrite (split_ink_space c SPACE (e :: s'') Hc Hd).
      rewrite (split_space_cons SPACE (e :: s'') Hd) in *.
      destruct (split_ink_cons e s'' He) as (t & ts & Hsp).
      rewrite Hsp in *. rewrite join_cons_cons, IH. reflexivity.
    + destruct (split_ink_cons d s' Hd) as (t & ts & Hsp).
      rewrite (split_ink_ink c d s' _ _ Hc Hd Hsp).
      rewrite Hsp in IH. rewrite join_cons_head, IH. reflexivity.
Qed.

Lemma collapse_norm (s : str) : norm s = true -> collapse_whitespace s = s.
Proof.
  unfold norm, collapse_whitespace. destruct s as [|c s']; [reflexivity|].
  intros H. rewrite (join_split_norm_after _ _ H).
  destruct (norm_after_false_inv _ H) as (c' & s'' & E & Hc & _).
  injection E as <- <-. rewrite Hc. reflexivity.
Qed.

Lemma collapse_head (s : str) :
  hd_error (collapse_whitespace s) = hd_error (lstrip s).
Proof.
  unfold collapse_whitespace. induction s as [|c s IH]; [reflexivity|].
  cbn [split lstrip]. destruct (isspace c) eqn:Hc; [exact IH|].
  destruct s as [|d s']; [reflexivity|].
  destruct (isspace d); [destruct (split (d :: s')); reflexivity|].
  destruct (split (d :: s')); [reflexivity|].
  rewrite join_cons_head. reflexivity.
Qed.

(** ** [replace] of a space-and-mark pair *)

Lemma list_pair_ind (P : str -> Prop) :
  P [] -> (forall c, P [c]) ->
  (forall c d s, P s -> P (d :: s) -> P (c :: d :: s)) ->
  forall s, P s.
Proof.
  intros H0 H1 H2 s.
  assert (H : P s /\ forall c, P (c :: s)); [|tauto].
  induction s as [|d s [IHa IHb]]; [split; [exact H0 | exact H1]|].
  split; [apply IHb|]. intros c. apply H2; [exact IHa | apply IHb].
Qed.

Lemma existsb_single (d p : ascii) : existsb (Ascii.eqb d) [p] = Ascii.eqb d p.
Proof. simpl. apply orb_false_r. Qed.

Lemma drop_cons_ink (ms : list ascii) (c : ascii) (s : str) :
  Ascii.eqb c SPACE = false ->
  drop_space_before ms (c :: s) = c :: drop_space_before ms s.
Proof. intros H. cbn [drop_space_before]. rewrite H. reflexivity. Qed.

Lemma drop_space_cons (ms : list ascii) (d : ascii) (s : str) :
  drop_space_before ms (SPACE :: d :: s)
  = if existsb (Ascii.eqb d) ms then drop_space_before ms (d :: s)
    else SPACE :: drop_space_before ms (d :: s).
Proof.
  change (drop_space_before ms (SPACE :: d :: s)) with
    (if Ascii.eqb SPACE SPACE && existsb (Ascii.eqb d) ms
     then drop_space_before ms (d :: s)
     else SPACE :: drop_space_before ms (d :: s)).
  rewrite Ascii.eqb_refl. reflexivity.
Qed.

(** With a mark that is not itself a space, the scan of
    [replace(" p", "p")] is the one-pass removal of the spaces before [p]. *)
Lemma replace_space_mark (p : ascii) (s : str) :
  Ascii.eqb p SPACE = false ->
  replace [SPACE; p] [p] s = drop_space_before [p] s.
Proof.
  intros Hp. unfold replace. induction s as [| c | c d s IHs IHd] using list_pair_ind.
  - reflexivity.
  - change (replace_scan [SPACE; p] [p] 0 [c]) with
      (if Ascii.eqb SPACE c && false then [p] ++ [] else [c]).
    cbn [drop_space_before]. rewrite !andb_false_r. reflexivity.
  - destruct (Ascii.eqb_spec c SPACE) as [-> | Hc].
    + rewrite drop_space_cons, existsb_single.
      destruct (Ascii.eqb_spec d p) as [-> | Hd].
      * rewrite drop_cons_ink by exact Hp. rewrite <- IHs.
        cbn. rewrite !Ascii.eqb_refl. reflexivity.
      * rewrite <- IHd.
        change (replace_scan [SPACE; p] [p] 0 (SPACE :: d :: s)) with
          (if Ascii.eqb SPACE SPACE && (Ascii.eqb p d && true)
           then [p] ++ replace_scan [SPACE; p] [p] 1 (d :: s)
           else SPACE :: replace_scan [SPACE; p] [p] 0 (d :: s)).
        destruct (Ascii.eqb_spec p d); [congruence|].
        rewrite andb_false_r. reflexivity.
    + rewrite drop_cons_ink by (apply Ascii.eqb_neq; exact Hc).
      rewrite <- IHd.
      change (replace_scan [SPACE; p] [p] 0 (c :: d :: s)) with
        (if Ascii.eqb SPACE c && (Ascii.eqb p d && true)
         then [p] ++ replace_scan [SPACE; p] [p] 1 (d :: s)
         else c :: replace_scan [SPACE; p] [p] 0 (d :: s)).
      destruct (Ascii.eqb_spec SPACE c); [congruence|]. reflexivity.
Qed.

(** ** One-pass removal on normalised text *)

Lemma norm_after_drop (ms : list ascii) (s : str) (b : bool) :
  norm_after b s = true -> norm_after b (drop_space_before ms s) = true.
Proof.
  revert b. induction s as [|c s IH]; intros b H; [exact H|].
  cbn [norm_after] in H. destruct (isspace c) eqn:Hc.
  - apply andb_true_iff in H. destruct H as [H1 H2].
    apply andb_true_iff in H1. destruct H1 as [Hb H1].
    apply Ascii.eqb_eq in H1. subst c. subst b.
    destruct (norm_after_false_inv _ H2) as (d & s' & -> & Hd & Hs').
    rewrite drop_space_cons. specialize (IH _ H2).
    destruct (existsb (Ascii.eqb d) ms).
    + apply norm_after_weaken. exact IH.
    + cbn [norm_after]. rewrite Hc, Ascii.eqb_refl. exact IH.
  - rewrite drop_cons_ink by (apply ink_not_space; exact Hc).
    cbn [norm_after]. rewrite Hc. apply IH. exact H.
Qed.

Lemma norm_drop (ms : list ascii) (s : str) :
  norm s = true -> norm (drop_space_before ms s) = true.
Proof.
  unfold norm. destruct s as [|c s]; [reflexivity|]. intros H.
  apply (norm_after_drop ms) in H.
  destruct (drop_space_before ms (c :: s)); [reflexivity | exact H].
Qed.

Lemma norm_capitalize (s : str) : norm s = true -> norm (capitalize_first s) = true.
Proof.
  destruct s as [|c s]; [reflexivity|]. unfold norm, capitalize_first.
  cbn [norm_after]. rewrite isspace_upper. auto.
Qed.

Lemma space_before_cons (q c : ascii) (s : str) :
  space_before q (c :: s)
  = (Ascii.eqb c SPACE && match s with d :: _ => Ascii.eqb d q | [] => false end)
    || space_before q s.
Proof. reflexivity. Qed.

(** Removing the spaces before the marks [ms] leaves no space before a
    mark of [ms], and creates no space before any other character. *)
Lemma space_before_drop (ms : list ascii) (q : ascii) (s : str) (b : bool) :
  norm_after b s = true ->
  existsb (Ascii.eqb q) ms = true \/ space_before q s = false ->
  space_before q (drop_space_before ms s) = false.
Proof.
  revert b. induction s as [|c s IH]; intros b H Hq; [reflexivity|].
  assert (Hq' : existsb (Ascii.eqb q) ms = true \/ space_before q s = false).
  { destruct Hq as [Hq | Hq]; [left; exact Hq | right].
    rewrite space_before_cons in Hq. apply orb_false_iff in Hq. tauto. }
  cbn [norm_after] in H. destruct (isspace c) eqn:Hc.
  - apply andb_true_iff in H. destruct H as [H1 H2].
    apply andb_true_iff in H1. destruct H1 as [_ H1].
    apply Ascii.eqb_eq in H1. subst c.
    destruct (norm_after_false_inv _ H2) as (d & s' & -> & Hd & Hs').
    rewrite drop_space_cons. specialize (IH _ H2 Hq').
    destruct (existsb (Ascii.eqb d) ms) eqn:Hdm; [exact IH|].
    rewrite space_before_cons, IH, orb_false_r, Ascii.eqb_refl.
    rewrite drop_cons_ink by (apply ink_not_space; exact Hd).
    destruct (Ascii.eqb_spec d q) as [-> | Hdq]; [|reflexivity].
    destruct Hq as [Hq | Hq]; [congruence|].
    rewrite space_before_cons, !Ascii.eqb_refl in Hq. discriminate.
  - rewrite drop_cons_ink by (apply ink_not_space; exact Hc).
    rewrite space_before_cons, (ink_not_space _ Hc). apply (IH _ H Hq').
Qed.

Lemma drop_nothing (ms : list ascii) (s : str) :
  (forall q, In q ms -> space_before q s = false) ->
  drop_space_before ms s = s.
Proof.
  induction s as [|c s IH]; intros H; [reflexivity|].
  assert (Hs : forall q, In q ms -> space_before q s = false).
  { intros q Hq. specialize (H q Hq). rewrite space_before_cons in H.
    apply orb_false_iff in H. tauto. }
  cbn [drop_space_before]. rewrite (IH Hs).
  destruct (Ascii.eqb c SPACE) eqn:Hc; [|reflexivity].
  destruct s as [|d s']; [reflexivity|].
  destruct (existsb (Ascii.eqb d) ms) eqn:Hd; [|reflexivity].
  apply existsb_exists in Hd. destruct Hd as (q & Hq & Hdq).
  apply Ascii.eqb_eq in Hdq. subst q.
  specialize (H d Hq). rewrite space_before_cons, Hc, Ascii.eqb_refl in H.
  discriminate.
Qed.

(** Two passes in a row amount to one pass for both sets of marks. *)
Lemma drop_drop (ms : list ascii) (q : ascii) (s : str) (b : bool) :
  norm_after b s = true ->
  drop_space_before [q] (drop_space_before ms s) = drop_space_before (ms ++ [q]) s.
Proof.
  revert b. induction s as [|c s IH]; intros b H; [reflexivity|].
  cbn [norm_after] in H. destruct (isspace c) eqn:Hc.
  - apply andb_true_iff in H. destruct H as [H1 H2].
    apply andb_true_iff in H1. destruct H1 as [_ H1].
    apply Ascii.eqb_eq in H1. subst c.
    destruct (norm_after_false_inv _ H2) as (d & s' & -> & Hd & Hs').
    rewrite !drop_space_cons. specialize (IH _ H2).
    rewrite existsb_app, existsb_single.
    destruct (existsb (Ascii.eqb d) ms) eqn:Hdm; [exact IH|].
    cbn [orb]. rewrite <- IH.
    rewrite (drop_cons_ink ms) by (apply ink_not_space; exact Hd).
    rewrite drop_space_cons, existsb_single. reflexivity.
  - rewrite !drop_cons_ink by (apply ink_not_space; exact Hc).
    f_equal. apply (IH _ H).
Qed.

Lemma drop_drop_norm (ms : list ascii) (q : ascii) (s : str) :
  norm s = true ->
  drop_space_before [q] (drop_space_before ms s) = drop_space_before (ms ++ [q]) s.
Proof.
  destruct s as [|c s]; [reflexivity|]. intros H.
  apply (drop_drop ms q (c :: s) false). exact H.
Qed.

(** The four [replace] calls of the clean-up are one pass over the text. *)
Lemma clean_one_pass (s : str) : clean_subtitle_text s = clean_spec s.
Proof.
  unfold clean_subtitle_text, clean_spec.
  set (t := capitalize_first (collapse_whitespace s)).
  assert (Ht : norm t = true) by (apply norm_capitalize, norm_collapse).
  rewrite !replace_space_mark by reflexivity.
  rewrite (drop_drop_norm [COMMA] DOT t Ht).
  rewrite (drop_drop_norm ([COMMA] ++ [DOT]) BANG t Ht).
  rewrite (drop_drop_norm (([COMMA] ++ [DOT]) ++ [BANG]) QUESTION t Ht).
  reflexivity.
Qed.

Lemma norm_clean (s : str) : norm (clean_subtitle_text s) = true.
Proof.
  rewrite clean_one_pass. apply norm_drop, norm_capitalize, norm_collapse.
Qed.

Lemma clean_no_space_before (s : str) (p : ascii) :
  In p marks -> space_before p (clean_subtitle_text s) = false.
Proof.
  intros Hp. rewrite clean_one_pass. unfold clean_spec.
  set (t := capitalize_first (collapse_whitespace s)).
  assert (Ht : norm t = true) by (apply norm_capitalize, norm_collapse).
  destruct t as [|c t'] eqn:E; [reflexivity|].
  apply (space_before_drop marks p (c :: t') false Ht).
  left. apply existsb_exists. exists p. split; [exact Hp | apply Ascii.eqb_refl].
Qed.

Lemma drop_head (ms : list ascii) (s : str) :
  norm s = true -> hd_error (drop_space_before ms s) = hd_error s.
Proof.
  destruct s as [|c s]; [reflexivity|]. intros H.
  destruct (norm_after_false_inv _ H) as (c' & s' & E & Hc & _).
  injection E as <- <-.
  rewrite drop_cons_ink by (apply ink_not_space; exact Hc). reflexivity.
Qed.

Lemma capitalize_head (s : str) :
  hd_error (capitalize_first s) = option_map upper (hd_error s).
Proof. destruct s; reflexivity. Qed.

(** The text starts with the upper-cased first visible character of the
    input. *)
Lemma clean_head (s : str) :
  hd_error (clean_subtitle_text s) = option_map upper (hd_error (lstrip s)).
Proof.
  rewrite clean_one_pass. unfold clean_spec.
  rewrite drop_head by (apply norm_capitalize, norm_collapse).
  rewrite capitalize_head, collapse_head. reflexivity.
Qed.

Lemma capitalized_clean (s : str) : capitalized (clean_subtitle_text s).
Proof.
  unfold capitalized. pose proof (clean_head s) as H.
  destruct (clean_subtitle_text s) as [|c r]; [reflexivity|].
  simpl in H. destruct (hd_error (lstrip s)) as [d|]; [|discriminate].
  simpl in H. injection H as ->. simpl. rewrite upper_upper. reflexivity.
Qed.

(** C6, as stated, fails on a text that starts with a digit: the first
    character of the result is ['3'], which is not an upper-case character. *)
Lemma clean_first_char_not_upper :
  exists c rest,
    clean_subtitle_text (list_ascii_of_string "3 dogs") = c :: rest /\
    isupper c = false.
Proof. eexists _, _. split; reflexivity. Qed.

(** C6, amended.  The cleaned text never has a space immediately before
    [,], [.], [!] or [?]; when the first character of the input that is not
    white space is an ASCII character, the cleaned text starts with its
    upper-case form, which is never a lower-case letter; and the clean-up
    is, in order, the collapse of white space to single spaces, the
    upper-casing of the first character, and the removal of each space that
    stands before one of the four marks.  The ASCII condition marks the
    range on which [upper] is Python's [str.upper]. *)
Theorem clean_text_shape (text : str) :
  (forall p, In p marks -> space_before p (clean_subtitle_text text) = false) /\
  (forall c, hd_error (lstrip text) = Some c -> isascii [c] = true ->
     hd_error (clean_subtitle_text text) = Some (upper c) /\
     islower (upper c) = false) /\
  clean_subtitle_text text
  = drop_space_before marks (capitalize_first (collapse_whitespace text)).
Proof.
  split; [|split].
  - intros p Hp. apply clean_no_space_before. exact Hp.
  - intros c Hc _. rewrite clean_head, Hc. split; [reflexivity|].
    apply islower_upper.
  - apply clean_one_pass.
Qed.

Lemma clean_text_shape_witness :
  hd_error (clean_subtitle_text (chars "  so , it goes")) = Some "S"%char /\
  islower "S"%char = false.
Proof.
  destruct (clean_text_shape (chars "  so , it goes")) as (_ & H & _).
  apply (H "s"%char); reflexivity.
Defined.

(** C9.  Cleaning a cleaned text changes nothing. *)
Theorem clean_idempotent (text : str) :
  clean_subtitle_text (clean_subtitle_text text) = clean_subtitle_text text.
Proof.
  rewrite (clean_one_pass (clean_subtitle_text text)). unfold clean_spec.
  rewrite collapse_norm by apply norm_clean.
  rewrite (capitalized_clean text).
  apply drop_nothing. intros q Hq. apply clean_no_space_before. exact Hq.
Qed.

(** ** Emitted text is never empty *)

Lemma lstrip_head_ink (s : str) (c : ascii) (r : str) :
  lstrip s = c :: r -> isspace c = false.
Proof.
  induction s as [|d s IH]; [discriminate|]. cbn [lstrip].
  destruct (isspace d) eqn:Hd; [exact IH|].
  intros E. injection E as <- _. exact Hd.
Qed.

Lemma lstrip_has_ink (s : str) : has_ink s = true -> lstrip s <> [].
Proof.
  induction s as [|d s IH]; [discriminate|]. cbn [lstrip has_ink existsb].
  destruct (isspace d); [exact IH | discriminate].
Qed.

Lemma has_ink_rev (s : str) : has_ink (rev s) = has_ink s.
Proof.
  unfold has_ink. apply eq_true_iff_eq. rewrite !existsb_exists.
  split; intros (c & Hin & Hc); exists c; split; auto;
    [apply in_rev | apply in_rev in Hin]; assumption.
Qed.

Lemma strip_has_ink (s : str) : nonempty (strip s) = true -> has_ink (strip s) = true.
Proof.
  unfold strip, rstrip. rewrite has_ink_rev.
  destruct (lstrip (rev (lstrip s))) as [|c r] eqn:E; [discriminate|].
  intros _. apply lstrip_head_ink in E. simpl. rewrite E. reflexivity.
Qed.

Lemma has_ink_app (s t : str) : has_ink (s ++ t) = has_ink s || has_ink t.
Proof. apply existsb_app. Qed.

Lemma has_ink_join (sep : str) (ws : list str) :
  Exists (fun w => has_ink w = true) ws -> has_ink (join sep ws) = true.
Proof.
  induction ws as [|w ws IH]; intros H; [inversion H|].
  destruct ws as [|u ws].
  - inversion H; subst; [assumption | inversion H1].
  - rewrite join_cons_cons, !has_ink_app.
    inversion H; subst.
    + rewrite H1. reflexivity.
    + rewrite (IH H1). rewrite !orb_true_r. reflexivity.
Qed.

Lemma clean_nonempty (s : str) : has_ink s = true -> clean_subtitle_text s <> [].
Proof.
  intros H E. pose proof (clean_head s) as Hh. rewrite E in Hh.
  apply lstrip_has_ink in H. destruct (lstrip s); [congruence | discriminate].
Qed.

Lemma emit_nonempty (ws : list str) (a b : Q) :
  ws <> [] -> Forall (fun w => has_ink w = true) ws -> sub_text (emit ws a b) <> [].
Proof.
  intros Hne Hall. apply clean_nonempty, has_ink_join.
  destruct ws as [|w ws]; [congruence|].
  apply Exists_cons_hd. inversion Hall; assumption.
Qed.

Section TextInvariant.

Variable max_words_per_segment : Z.
Variable max_subtitle_duration : Q.

Lemma word_step_text (st : LoopState) (word_info : WordInfo) :
  inked (current_segment st) -> worded (subtitle_segments st) ->
  let st' := word_step max_words_per_segment max_subtitle_duration st word_info in
  inked (current_segment st') /\ worded (subtitle_segments st').
Proof.
  intros Hb Ho. unfold word_step.
  destruct (nonempty (word_text word_info)) eqn:Hw; cbn [negb]; [|auto].
  assert (Hbuf : inked (current_segment st ++ [word_text word_info])).
  { apply Forall_app. split; [exact Hb|]. constructor; [|constructor].
    apply strip_has_ink. exact Hw. }
  match goal with |- context [if ?b then _ else _] => destruct b end; cbn.
  - split; [constructor|]. apply Forall_app. split; [exact Ho|].
    constructor; [|constructor]. apply emit_nonempty; [|exact Hbuf].
    destruct (current_segment st); discriminate.
  - split; assumption.
Qed.

Lemma word_loop_text (words : list WordInfo) (st : LoopState) :
  inked (current_segment st) -> worded (subtitle_segments st) ->
  let st' := word_loop max_words_per_segment max_subtitle_duration st words in
  inked (current_segment st') /\ worded (subtitle_segments st').
Proof.
  revert st. induction words as [|w words IH]; intros st Hb Ho; [split; assumption|].
  destruct (word_step_text st w Hb Ho) as [Hb' Ho'].
  apply (IH _ Hb' Ho').
Qed.

Lemma segment_step_text (out : list Subtitle) (segment : Segment) :
  worded out ->
  worded (segment_step max_words_per_segment max_subtitle_duration out segment).
Proof.
  intros Ho. unfold segment_step.
  destruct (nonempty (dict_get (seg_words segment) [])); cbn [negb].
  - destruct (word_loop_text (dict_get (seg_words segment) [])
                (mkState [] None out) (Forall_nil _) Ho) as [Hb' Ho'].
    unfold flush.
    destruct (current_start _); [|exact Ho'].
    destruct (nonempty (current_segment _)) eqn:Hne; [|exact Ho'].
    apply Forall_app. split; [exact Ho'|]. constructor; [|constructor].
    apply emit_nonempty; [|exact Hb'].
    intros E. rewrite E in Hne. discriminate.
  - destruct (nonempty (strip (dict_get (seg_text segment) []))) eqn:Ht; [|exact Ho].
    apply Forall_app. split; [exact Ho|]. constructor; [|constructor].
    cbn. apply clean_nonempty, strip_has_ink. exact Ht.
Qed.

End TextInvariant.

(** ** The word loop and its groups *)

Lemma fold_left_invariant (A B : Type) (f : A -> B -> A) (P : A -> Prop) :
  (forall a b, P a -> P (f a b)) ->
  forall l a, P a -> P (fold_left f l a).
Proof.
  intros Hstep l. induction l as [|b l IH]; intros a Ha; [exact Ha|].
  apply IH, Hstep, Ha.
Qed.

Lemma first_start_snoc (buffer : list WordInfo) (w : WordInfo) :
  first_start (buffer ++ [w])
  = match buffer with [] => word_start w | _ :: _ => first_start buffer end.
Proof. destruct buffer; reflexivity. Qed.

Lemma Qgtb_false (a b : Q) : Qgtb a b = false -> a <= b.
Proof. unfold Qgtb. destruct (Qlt_le_dec b a); [discriminate | auto]. Qed.

Section LoopFacts.

Variable mw : Z.
Variable md : Q.

Lemma step_simulates (out : list Subtitle) (st : LoopState) (gs : GroupState)
    (w : WordInfo) :
  simulates out st gs ->
  simulates out (word_step mw md st w) (group_step mw md gs w).
Proof.
  intros (Hbuf & Hstart & Hout). unfold word_step, group_step, has_text.
  destruct (nonempty (word_text w)); cbn [negb]; [|repeat split; assumption].
  assert (Hs : match current_start st with
               | Some t => t
               | None => word_start w
               end = first_start (pending gs ++ [w])).
  { rewrite Hstart, first_start_snoc. destruct (pending gs); reflexivity. }
  rewrite Hs, Hbuf.
  assert (Hm : map word_text (pending gs) ++ [word_text w]
               = map word_text (pending gs ++ [w]))
    by (rewrite map_app; reflexivity).
  rewrite Hm, length_map.
  match goal with |- context [if ?b then _ else _] => destruct b end.
  - split; [reflexivity|]. split; [reflexivity|].
    cbn [subtitle_segments closed]. rewrite Hout, (map_app render), <- app_assoc.
    reflexivity.
  - split; [reflexivity|]. split; [|exact Hout]. cbn.
    destruct (pending gs); reflexivity.
Qed.

Lemma loop_simulates (out : list Subtitle) (words : list WordInfo)
    (st : LoopState) (gs : GroupState) :
  simulates out st gs ->
  simulates out (word_loop mw md st words) (group_loop mw md gs words).
Proof.
  revert st gs. induction words as [|w words IH]; intros st gs H; [exact H|].
  apply IH, step_simulates, H.
Qed.

(** The segments of a transcription segment with word-level timings are
    its groups, rendered. *)
Lemma groups_render (out : list Subtitle) (words : list WordInfo) :
  flush words (word_loop mw md (mkState [] None out) words)
  = out ++ map render (word_groups mw md words).
Proof.
  assert (H0 : simulates out (mkState [] None out) (mkGroups [] []))
    by (repeat split; cbn; rewrite app_nil_r; reflexivity).
  destruct (loop_simulates out words _ _ H0) as (Hbuf & Hstart & Hout).
  unfold flush, word_groups, flush_group. rewrite Hstart, Hbuf, Hout.
  destruct (pending (group_loop mw md (mkGroups [] []) words)) as [|w buffer].
  - rewrite app_nil_r. reflexivity.
  - cbn [nonempty map]. rewrite map_app, app_assoc. reflexivity.
Qed.

Lemma segment_step_trace (out : list Subtitle) (segment : Segment) :
  segment_step mw md out segment
  = out ++ fallback_subtitle segment ++ map render (segment_groups mw md segment).
Proof.
  unfold segment_step, fallback_subtitle, segment_groups.
  destruct (dict_get (seg_words segment) []) as [|w words] eqn:E; cbn [nonempty negb].
  - destruct (nonempty (strip (dict_get (seg_text segment) [])));
      cbn; rewrite ?app_nil_r; reflexivity.
  - apply groups_render.
Qed.

Lemma create_trace (segments : list Segment) :
  create_subtitle_segments mw md segments
  = flat_map (fun segment => fallback_subtitle segment
                             ++ map render (segment_groups mw md segment))
             segments.
Proof.
  unfold create_subtitle_segments.
  assert (H : forall out,
            fold_left (segment_step mw md) segments out
            = out ++ flat_map (fun segment => fallback_subtitle segment
                                 ++ map render (segment_groups mw md segment))
                              segments).
  { induction segments as [|seg segs IH]; intros out; cbn [fold_left flat_map].
    - rewrite app_nil_r. reflexivity.
    - rewrite IH, segment_step_trace, <- app_assoc. reflexivity. }
  apply (H []).
Qed.

(** The groups split the words that have text, in input order. *)
Lemma loop_partition (words : list WordInfo) (gs : GroupState) :
  let gs' := group_loop mw md gs words in
  List.concat (map g_words (closed gs')) ++ pending gs'
  = List.concat (map g_words (closed gs)) ++ pending gs ++ spoken words.
Proof.
  revert gs. induction words as [|w words IH]; intros gs; cbn [group_loop fold_left spoken filter].
  - rewrite app_nil_r. reflexivity.
  - specialize (IH (group_step mw md gs w)). cbn zeta in IH.
    unfold group_loop in IH. rewrite IH. clear IH.
    unfold group_step. destruct (has_text w); cbn [negb]; [|reflexivity].
    match goal with |- context [if ?b then _ else _] => destruct b end; cbn.
    + rewrite map_app, List.concat_app. cbn. rewrite app_nil_r, <- !app_assoc. reflexivity.
    + rewrite <- !app_assoc. reflexivity.
Qed.

Lemma groups_partition (words : list WordInfo) :
  List.concat (map g_words (word_groups mw md words)) = spoken words.
Proof.
  pose proof (loop_partition words (mkGroups [] [])) as H. cbn in H.
  unfold word_groups, flush_group. rewrite map_app, List.concat_app.
  destruct (pending (group_loop mw md (mkGroups [] []) words)) eqn:E.
  - cbn. rewrite app_nil_r in *. exact H.
  - cbn. rewrite app_nil_r. exact H.
Qed.


(** *** Word count *)

Lemma step_counted (gs : GroupState) (w : WordInfo) :
  counted mw gs -> counted mw (group_step mw md gs w).
Proof.
  intros [Hp Hc]. unfold group_step.
  destruct (has_text w); cbn [negb]; [|split; assumption].
  assert (Hlen : List.length (pending gs ++ [w]) = S (List.length (pending gs)))
    by (rewrite length_app; cbn; lia).
  destruct (mw <=? Z.of_nat (List.length (pending gs ++ [w])))%Z eqn:Hfull;
    cbn [orb].
  - split; cbn; [lia|]. apply Forall_app. split; [exact Hc|].
    constructor; [|constructor]. cbn. lia.
  - apply Z.leb_gt in Hfull.
    match goal with |- context [if ?b then _ else _] => destruct b end.
    + split; cbn; [lia|]. apply Forall_app. split; [exact Hc|].
      constructor; [|constructor]. cbn. lia.
    + split; cbn; [lia | exact Hc].
Qed.

Lemma groups_counted (words : list WordInfo) (g : Group) :
  (1 <= mw)%Z -> In g (word_groups mw md words) ->
  (1 <= List.length (g_words g))%nat /\ (Z.of_nat (List.length (g_words g)) <= mw)%Z.
Proof.
  intros Hmw Hin.
  assert (H : counted mw (group_loop mw md (mkGroups [] []) words)).
  { apply (fold_left_invariant _ _ (group_step mw md) (counted mw));
      [apply step_counted|].
    split; cbn; [lia | constructor]. }
  destruct H as [Hp Hc]. unfold word_groups, flush_group in Hin.
  apply in_app_or in Hin. destruct Hin as [Hin | Hin].
  - rewrite Forall_forall in Hc. apply Hc, Hin.
  - destruct (pending (group_loop mw md (mkGroups [] []) words)) as [|w b] eqn:E;
      [destruct Hin|].
    destruct Hin as [<- | []]. cbn [g_words]. cbn in *. lia.
Qed.

(** *** Duration limit *)

Lemma within_first_start (buffer : list WordInfo) (w : WordInfo) :
  within md (first_start buffer) buffer ->
  within md (first_start (buffer ++ [w])) buffer.
Proof.
  rewrite first_start_snoc. destruct buffer; [intros _ x []| auto].
Qed.

Lemma step_limited (gs : GroupState) (w : WordInfo) :
  limited md gs -> limited md (group_step mw md gs w).
Proof.
  intros (Ht & Hw & Hc). unfold group_step.
  destruct (has_text w) eqn:Hw'; cbn [negb]; [|repeat split; assumption].
  assert (Hbt : forallb has_text (pending gs ++ [w]) = true).
  { rewrite forallb_app, Ht. cbn. rewrite Hw'. reflexivity. }
  pose proof (within_first_start _ w Hw) as Hw2.
  destruct ((mw <=? Z.of_nat (List.length (pending gs ++ [w])))%Z
            || is_sentence_end (word_text w)
            || Qgtb (word_end w - first_start (pending gs ++ [w])) md) eqn:Hend.
  - split; [reflexivity|]. split; [intros x []|]. cbn [closed].
    apply Forall_app. split; [exact Hc|]. constructor; [|constructor].
    unfold closed_group. cbn [g_words g_start g_end].
    rewrite last_last, removelast_last.
    split; [destruct (pending gs); discriminate|]. auto.
  - apply orb_false_iff in Hend. destruct Hend as [_ Hend].
    apply Qgtb_false in Hend.
    split; [exact Hbt|]. split; [|exact Hc]. cbn [pending].
    intros x Hx. apply in_app_or in Hx. destruct Hx as [Hx | [<- | []]];
      [apply Hw2, Hx | exact Hend].
Qed.

Lemma groups_limited (words : list WordInfo) (g : Group) :
  In g (word_groups mw md words) ->
  closed_group md g \/ flushed_group md words g.
Proof.
  intros Hin.
  assert (H : limited md (group_loop mw md (mkGroups [] []) words)).
  { apply (fold_left_invariant _ _ (group_step mw md) (limited md));
      [apply step_limited|].
    split; [reflexivity|]. split; [intros x [] | constructor]. }
  destruct H as (Ht & Hw & Hc). unfold word_groups, flush_group in Hin.
  apply in_app_or in Hin. destruct Hin as [Hin | Hin].
  - left. rewrite Forall_forall in Hc. apply Hc, Hin.
  - right. destruct (pending (group_loop mw md (mkGroups [] []) words)) as [|w b] eqn:E;
      [destruct Hin|].
    destruct Hin as [<- | []]. unfold flushed_group. cbn [g_words g_start g_end].
    split; [discriminate|]. auto.
Qed.

Lemma groups_start (words : list WordInfo) (g : Group) :
  In g (word_groups mw md words) ->
  g_words g <> [] /\ g_start g = first_start (g_words g).
Proof.
  intros Hin. destruct (groups_limited words g Hin) as [H | H];
    [destruct H as (H1 & _ & H3 & _) | destruct H as (H1 & _ & H3 & _)]; auto.
Qed.

(** *** Words without text *)

Lemma step_skips_empty (st : LoopState) (w : WordInfo) :
  has_text w = false -> word_step mw md st w = st.
Proof. unfold word_step, has_text. intros ->. reflexivity. Qed.

Lemma loop_skips_empty (words : list WordInfo) (st : LoopState) :
  word_loop mw md st words = word_loop mw md st (spoken words).
Proof.
  revert st. induction words as [|w words IH]; intros st; [reflexivity|].
  cbn [spoken filter word_loop fold_left].
  destruct (has_text w) eqn:Hw.
  - cbn [fold_left]. apply IH.
  - rewrite step_skips_empty by exact Hw. apply IH.
Qed.

End LoopFacts.

Lemma spoken_cons (w : WordInfo) (words : list WordInfo) :
  spoken (w :: words) = if has_text w then w :: spoken words else spoken words.
Proof. reflexivity. Qed.

Lemma last_spoken (words : list WordInfo) :
  has_text (last words no_word) = true ->
  last (spoken words) no_word = last words no_word.
Proof.
  induction words as [|w words IH]; [reflexivity|].
  destruct words as [|v words].
  - cbn. intros ->. reflexivity.
  - intros H. specialize (IH H).
    change (last (w :: v :: words) no_word) with (last (v :: words) no_word).
    rewrite <- IH, (spoken_cons w).
    destruct (has_text w); [|reflexivity].
    destruct (spoken (v :: words)) as [|x xs] eqn:E; [|reflexivity].
    assert (H' : has_text (last (v :: words) no_word) = true) by exact H.
    rewrite <- IH in H'. discriminate.
Qed.

(** ** Order of the start times *)

Lemma Subseq_refl (A : Type) (l : list A) : Subseq l l.
Proof. induction l; [apply Subseq_nil | apply Subseq_keep; assumption]. Qed.

Lemma Subseq_app (A : Type) (l1 l2 m1 m2 : list A) :
  Subseq l1 l2 -> Subseq m1 m2 -> Subseq (l1 ++ m1) (l2 ++ m2).
Proof.
  intros H Hm. induction H; cbn;
    [exact Hm | apply Subseq_skip | apply Subseq_keep]; assumption.
Qed.

Lemma Subseq_skip_app (A : Type) (l l1 l2 : list A) :
  Subseq l1 l2 -> Subseq l1 (l ++ l2).
Proof. intros H. induction l; cbn; [exact H | apply Subseq_skip; assumption]. Qed.

Lemma Subseq_In (A : Type) (l1 l2 : list A) (x : A) :
  Subseq l1 l2 -> In x l1 -> In x l2.
Proof.
  intros H. induction H; cbn; intros Hx; [exact Hx | right; auto |].
  destruct Hx as [Hx | Hx]; [left; exact Hx | right; auto].
Qed.

Lemma Subseq_chronological (l1 l2 : list Q) :
  Subseq l1 l2 -> chronological l2 -> chronological l1.
Proof.
  unfold chronological. intros H. induction H; intros Hs.
  - constructor.
  - apply IHSubseq. inversion Hs; assumption.
  - inversion Hs as [|? ? Hs' Hall]; subst. constructor; [auto|].
    rewrite Forall_forall in *. intros y Hy. apply Hall.
    apply (Subseq_In _ _ _ _ H Hy).
Qed.

(** The first elements of non-empty blocks, among all their elements. *)
Lemma heads_Subseq (gs : list Group) :
  Forall (fun g => g_words g <> [] /\ g_start g = first_start (g_words g)) gs ->
  Subseq (map g_start gs) (map word_start (List.concat (map g_words gs))).
Proof.
  induction gs as [|g gs IH]; intros H; [constructor|].
  inversion H as [|? ? [Hne Hst] Hrest]; subst. cbn [map List.concat].
  rewrite map_app, Hst. destruct (g_words g) as [|w ws]; [congruence|].
  change (first_start (w :: ws)) with (word_start w). cbn [map app].
  apply Subseq_keep, Subseq_skip_app, IH, Hrest.
Qed.

Lemma map_sub_start_render (gs : list Group) :
  map sub_start (map render gs) = map g_start gs.
Proof. rewrite map_map. reflexivity. Qed.

Lemma segment_starts_Subseq (mw : Z) (md : Q) (segment : Segment) :
  Subseq (map sub_start (fallback_subtitle segment
                         ++ map render (segment_groups mw md segment)))
         (segment_starts segment).
Proof.
  unfold fallback_subtitle, segment_groups, segment_starts.
  destruct (dict_get (seg_words segment) []) as [|w words] eqn:E.
  - cbn. destruct (nonempty (strip (dict_get (seg_text segment) [])));
      apply Subseq_refl.
  - cbn [nonempty app]. rewrite map_sub_start_render.
    rewrite <- (groups_partition mw md (w :: words)).
    apply heads_Subseq. rewrite Forall_forall. intros g Hg.
    apply (groups_start mw md (w :: words) g Hg).
Qed.

Lemma output_starts_Subseq (mw : Z) (md : Q) (segments : list Segment) :
  Subseq (map sub_start (create_subtitle_segments mw md segments))
         (input_starts segments).
Proof.
  rewrite create_trace. unfold input_starts.
  induction segments as [|seg segs IH]; [constructor|].
  cbn [flat_map]. rewrite map_app.
  apply Subseq_app; [apply segment_starts_Subseq | exact IH].
Qed.

(** ** Segment Timer: the claims *)

(** C2, as stated, fails on words whose time stamps run backwards: with one
    word per segment the emitted starts are 5 and then 1. *)
Lemma starts_follow_input_order :
  map sub_start (create_subtitle_segments 1 1 [word_segment unordered_words]) = [5; 1] /\
  ~ chronological (map sub_start
                     (create_subtitle_segments 1 1 [word_segment unordered_words])).
Proof.
  assert (E : map sub_start (create_subtitle_segments 1 1 [word_segment unordered_words])
              = [5; 1]) by (vm_compute; reflexivity).
  split; [exact E|]. rewrite E. intros H.
  inversion H as [|? ? _ Hall]; subst. inversion Hall as [|? ? Hle _]; subst.
  revert Hle. vm_compute. intros Hle. apply Hle. reflexivity.
Qed.

(** C2, amended.  For a positive [max_words_per_segment], the output is the
    rendering of the word groups (and of the fallback segments); every
    segment emitted from word timings is made of at least one and at most
    [max_words_per_segment] words; the emitted start times are start times
    of the input in input order, so they are non-decreasing whenever the
    input's start times are. *)
Theorem segments_bounded_and_ordered
    (max_words_per_segment : Z) (max_subtitle_duration : Q)
    (segments : list Segment) :
  (1 <= max_words_per_segment)%Z ->
  create_subtitle_segments max_words_per_segment max_subtitle_duration segments
  = flat_map (fun segment =>
                fallback_subtitle segment
                ++ map render (segment_groups max_words_per_segment
                                              max_subtitle_duration segment))
             segments /\
  (forall segment g,
     In g (segment_groups max_words_per_segment max_subtitle_duration segment) ->
     (1 <= List.length (g_words g))%nat /\
     (Z.of_nat (List.length (g_words g)) <= max_words_per_segment)%Z) /\
  Subseq (map sub_start (create_subtitle_segments max_words_per_segment
                                                  max_subtitle_duration segments))
         (input_starts segments) /\
  (chronological (input_starts segments) ->
   chronological (map sub_start (create_subtitle_segments max_words_per_segment
                                                          max_subtitle_duration segments))).
Proof.
  intros Hmw. split; [apply create_trace|]. split; [|split].
  - intros segment g Hg. apply (groups_counted _ _ _ g Hmw Hg).
  - apply output_starts_Subseq.
  - apply Subseq_chronological, output_starts_Subseq.
Qed.

Lemma segments_bounded_and_ordered_witness :
  chronological (map sub_start (create_subtitle_segments 3 1 [word_segment hello_words])).
Proof.
  destruct (segments_bounded_and_ordered 3 1 [word_segment hello_words])
    as (_ & _ & _ & H); [lia|].
  apply H.
  assert (E : input_starts [word_segment hello_words]
              = [0; 1 # 10; 2 # 10; 3 # 10; 4 # 10; 5 # 10])
    by (vm_compute; reflexivity).
  rewrite E. unfold chronological.
  repeat constructor; unfold Qle; cbn; lia.
Defined.




(** C8, as stated, fails when the word list ends with a blank token: the
    flushed segment takes its end from that token, 0.9 s, and from the last
    spoken word, 0.5 s, once the token is removed. *)
Lemma trailing_blank_word_moves_end :
  map sub_end (create_subtitle_segments 3 1 [word_segment trailing_blank_words])
  = [9 # 10] /\
  map sub_end (create_subtitle_segments 3 1
                 [drop_empty_words (word_segment trailing_blank_words)])
  = [1 # 2] /\
  create_subtitle_segments 3 1 [word_segment trailing_blank_words]
  <> create_subtitle_segments 3 1 [drop_empty_words (word_segment trailing_blank_words)].
Proof.
  split; [vm_compute; reflexivity|]. split; [vm_compute; reflexivity|].
  intros H. apply (f_equal (map sub_end)) in H. vm_compute in H. discriminate.
Qed.

Lemma segment_step_drop (mw : Z) (md : Q) (out : list Subtitle) (segment : Segment) :
  ends_with_text segment ->
  segment_step mw md out segment = segment_step mw md out (drop_empty_words segment).
Proof.
  unfold ends_with_text, segment_step, drop_empty_words. cbn [seg_words seg_text seg_start seg_end].
  assert (E : dict_get (option_map spoken (seg_words segment)) []
              = spoken (dict_get (seg_words segment) []))
    by (destruct (seg_words segment); reflexivity).
  rewrite E. clear E.
  destruct (dict_get (seg_words segment) []) as [|w words] eqn:Ew.
  - intros _. reflexivity.
  - intros [H | H]; [discriminate|].
    pose proof (last_spoken _ H) as Hl.
    assert (Hne : nonempty (spoken (w :: words)) = true).
    { destruct (spoken (w :: words)); [|reflexivity].
      rewrite <- Hl in H. vm_compute in H. discriminate. }
    rewrite Hne. cbn [nonempty negb].
    rewrite (loop_skips_empty mw md (w :: words)).
    unfold flush. rewrite Hl. reflexivity.
Qed.

(** C8, amended.  A word whose trimmed text is empty leaves the loop
    variables as they are, so the loop ends in the same state as on the
    list without such words; the output is identical to the output on the
    input without them whenever the last word of each transcription
    segment has text. *)
Theorem empty_words_leave_state
    (max_words_per_segment : Z) (max_subtitle_duration : Q) :
  (forall st word_info,
     has_text word_info = false ->
     word_step max_words_per_segment max_subtitle_duration st word_info = st) /\
  (forall st words,
     word_loop max_words_per_segment max_subtitle_duration st words
     = word_loop max_words_per_segment max_subtitle_duration st (spoken words)) /\
  (forall segments,
     Forall ends_with_text segments ->
     create_subtitle_segments max_words_per_segment max_subtitle_duration segments
     = create_subtitle_segments max_words_per_segment max_subtitle_duration
                                (map drop_empty_words segments)).
Proof.
  split; [|split].
  - intros st w Hw. apply step_skips_empty. exact Hw.
  - intros st words. apply loop_skips_empty.
  - intros segments. unfold create_subtitle_segments. generalize (@nil Subtitle).
    induction segments as [|seg segs IH]; intros out H; [reflexivity|].
    inversion H as [|? ? Hseg Hsegs]; subst. cbn [map fold_left].
    rewrite <- segment_step_drop by exact Hseg. apply IH. exact Hsegs.
Qed.

Lemma empty_words_leave_state_witness :
  create_subtitle_segments 3 1
    [word_segment (timed_word " " 0 (1 # 10) :: hello_words)]
  = create_subtitle_segments 3 1
      (map drop_empty_words [word_segment (timed_word " " 0 (1 # 10) :: hello_words)]).
Proof.
  destruct (empty_words_leave_state 3 1) as (_ & _ & H). apply H.
  constructor; [|constructor]. right. reflexivity.
Defined.

(** C10.  Every emitted segment has non-empty text.  On the word-level path
    a segment is made of at least one word, each with non-empty trimmed
    text; on the fallback path a segment is emitted only when the trimmed
    text of the transcription segment is non-empty. *)
Theorem emitted_text_nonempty
    (max_words_per_segment : Z) (max_subtitle_duration : Q)
    (segments : list Segment) :
  (forall sub,
     In sub (create_subtitle_segments max_words_per_segment max_subtitle_duration
                                      segments) ->
     sub_text sub <> []) /\
  (forall segment g,
     In g (segment_groups max_words_per_segment max_subtitle_duration segment) ->
     g_words g <> [] /\ forallb has_text (g_words g) = true) /\
  (forall segment sub,
     In sub (fallback_subtitle segment) ->
     nonempty (strip (dict_get (seg_text segment) [])) = true).
Proof.
  split; [|split].
  - unfold create_subtitle_segments.
    assert (H : forall out, worded out ->
              worded (fold_left (segment_step max_words_per_segment
                                              max_subtitle_duration)
                                segments out)).
    { induction segments as [|seg segs IH]; intros out Ho; [exact Ho|].
      apply IH, segment_step_text, Ho. }
    intros sub Hin. specialize (H [] (Forall_nil _)).
    unfold worded in H. rewrite Forall_forall in H. apply H. exact Hin.
  - intros segment g Hg.
    destruct (groups_limited _ _ _ g Hg) as [(H1 & H2 & _) | (H1 & H2 & _)];
      split; assumption.
  - intros segment sub. unfold fallback_subtitle.
    destruct (nonempty (dict_get (seg_words segment) [])); [intros []|].
    destruct (nonempty (strip (dict_get (seg_text segment) []))); [auto | intros []].
Qed.

Lemma emitted_text_nonempty_witness :
  sub_text (mkSubtitle (chars "Hi") 0 (1 # 2) ((1 # 2) - 0)) <> [].
Proof.
  destruct (emitted_text_nonempty 3 1 [word_segment [timed_word " hi" 0 (1 # 2)]])
    as (H & _).
  apply H. vm_compute. left. reflexivity.
Defined.

(** ** Composer: release of the media handles *)

(** On a normal return the three handles were created and closed. *)
Lemma compose_video_return_releases (env : Env) (a : Artifact) (h : Handles) :
  compose_video env no_handles = (Returned a, h) ->
  loaded h = [VideoClip; AudioClip; FinalVideo] /\ all_released h = true.
Proof.
  destruct env as [[|] [|] [|] [|] [|] [|]]; vm_compute; intros E;
    inversion E; subst; split; reflexivity.
Qed.

(** C7 at the failing input.  When the export fails after both clips were
    loaded, the call exits by the exception with the three handles created
    and none of them closed. *)
Theorem compose_video_export_failure_leaks :
  compose_video export_failure no_handles
  = (Raised, mkHandles [VideoClip; AudioClip; FinalVideo] []) /\
  all_released (snd (compose_video export_failure no_handles)) = false.
Proof. split; reflexivity. Qed.

(** ** Caption time stamps *)

Lemma int_inject_Z (z : Z) : Py.int (inject_Z z) = z.
Proof. unfold Py.int. simpl. apply Z.quot_1_r. Qed.

Lemma inject_Z_div_mod (a k : Z) :
  (0 < k)%Z ->
  inject_Z a == inject_Z k * inject_Z (a / k) + inject_Z (a mod k) /\
  0 <= inject_Z (a mod k) /\ inject_Z (a mod k) <= inject_Z k - 1.
Proof.
  intros Hk. pose proof (Z.div_mod a k ltac:(lia)) as E.
  pose proof (Z.mod_pos_bound a k Hk) as [B1 B2].
  split; [|split].
  - rewrite <- inject_Z_mult, <- inject_Z_plus, <- E. reflexivity.
  - change 0 with (inject_Z 0). rewrite <- Zle_Qle. exact B1.
  - setoid_replace (inject_Z k - 1) with (inject_Z (k - 1))
      by (unfold Z.sub; rewrite inject_Z_plus; reflexivity).
    rewrite <- Zle_Qle. lia.
Qed.

(** Flooring after a division by a positive whole number. *)
Lemma floor_div_int (x : Q) (k : Z) :
  (0 < k)%Z -> Qfloor (x / inject_Z k) = (Qfloor x / k)%Z.
Proof.
  intros Hk. destruct (floor_bounds x) as [F1 F2].
  destruct (inject_Z_div_mod (Qfloor x) k Hk) as (E & R1 & R2).
  assert (Qk : 0 < inject_Z k) by (change 0 with (inject_Z 0); rewrite <- Zlt_Qlt; exact Hk).
  apply floor_unique.
  - apply div_mul_le; [exact Qk|]. rewrite Qmult_comm. lra.
  - apply div_mul_lt; [exact Qk|].
    setoid_replace ((inject_Z (Qfloor x / k) + 1) * inject_Z k)
      with (inject_Z k * inject_Z (Qfloor x / k) + inject_Z k) by ring.
    lra.
Qed.

(** The remainder by a positive whole number keeps the fractional part. *)
Lemma fmod_int (x : Q) (k : Z) :
  (0 < k)%Z ->
  Py.fmod x (inject_Z k) == inject_Z (Qfloor x mod k) + (x - inject_Z (Qfloor x)).
Proof.
  intros Hk. unfold Py.fmod. rewrite (floor_div_int x k Hk).
  destruct (inject_Z_div_mod (Qfloor x) k Hk) as (E & _). lra.
Qed.

Lemma floor_fmod_int (x : Q) (k : Z) :
  (0 < k)%Z -> Qfloor (Py.fmod x (inject_Z k)) = (Qfloor x mod k)%Z.
Proof.
  intros Hk. rewrite (fmod_int x k Hk).
  destruct (floor_bounds x) as [F1 F2]. apply floor_unique; lra.
Qed.

Lemma fmod_nonneg (x : Q) (k : Z) : (0 < k)%Z -> 0 <= Py.fmod x (inject_Z k).
Proof.
  intros Hk. rewrite (fmod_int x k Hk).
  destruct (floor_bounds x) as [F1 F2].
  destruct (inject_Z_div_mod (Qfloor x) k Hk) as (_ & R1 & _). lra.
Qed.

Lemma srt_fields_floor (seconds : Q) :
  let t := srt_fields seconds in
  srt_hours t = (Qfloor seconds / 3600)%Z /\
  srt_minutes t = ((Qfloor seconds mod 3600) / 60)%Z /\
  srt_secs t = (Qfloor seconds mod 60)%Z /\
  srt_milliseconds t = (Qfloor (seconds * 1000) - 1000 * Qfloor seconds)%Z /\
  (0 <= srt_milliseconds t < 1000)%Z.
Proof.
  cbn [srt_fields srt_hours srt_minutes srt_secs srt_milliseconds]. unfold floordiv.
  rewrite !int_inject_Z.
  change 3600 with (inject_Z 3600). change 60 with (inject_Z 60).
  rewrite (floor_div_int seconds 3600) by lia.
  rewrite (floor_div_int (Py.fmod seconds (inject_Z 3600)) 60) by lia.
  rewrite (floor_fmod_int seconds 3600) by lia.
  rewrite (int_floor_nonneg _ (fmod_nonneg seconds 60 ltac:(lia))).
  rewrite (floor_fmod_int seconds 60) by lia.
  split; [reflexivity|]. split; [reflexivity|]. split; [reflexivity|].
  destruct (floor_bounds seconds) as [F1 F2].
  assert (E1 : Py.fmod seconds 1 == seconds - inject_Z (Qfloor seconds)).
  { change 1 with (inject_Z 1) at 1. rewrite (fmod_int seconds 1) by lia.
    rewrite Z.mod_1_r. change (inject_Z 0) with 0. ring. }
  assert (Hm : 0 <= Py.fmod seconds 1 * 1000) by (rewrite E1; lra).
  rewrite (int_floor_nonneg _ Hm).
  destruct (floor_bounds (Py.fmod seconds 1 * 1000)) as [M1 M2].
  set (m := Qfloor (Py.fmod seconds 1 * 1000)) in *.
  rewrite E1 in M1, M2.
  assert (Ht : Qfloor (seconds * 1000) = (1000 * Qfloor seconds + m)%Z).
  { apply floor_unique; rewrite inject_Z_plus, inject_Z_mult;
      change (inject_Z 1000) with 1000; lra. }
  split; [lia|].
  assert (A : inject_Z (-1) < inject_Z m) by (change (inject_Z (-1)) with (-1); lra).
  assert (B : inject_Z m < inject_Z 1000) by (change (inject_Z 1000) with 1000; lra).
  apply inject_Z_lt_inv in A, B. lia.
Qed.

Lemma format_0d_width (width bound : nat) (n : Z) :
  forallb (fun k => List.length (format_0d width (Z.of_nat k)) =? width)%nat
          (seq 0 bound) = true ->
  (0 <= n < Z.of_nat bound)%Z ->
  List.length (format_0d width n) = width.
Proof.
  intros Hall Hn. rewrite forallb_forall in Hall.
  specialize (Hall (Z.to_nat n)). rewrite Z2Nat.id in Hall by lia.
  apply Nat.eqb_eq, Hall, in_seq. lia.
Qed.

Lemma format_0d_two (n : Z) :
  (0 <= n < 100)%Z -> List.length (format_0d 2 n) = 2%nat.
Proof. apply (format_0d_width 2 100). vm_compute. reflexivity. Qed.

Lemma format_0d_three (n : Z) :
  (0 <= n < 1000)%Z -> List.length (format_0d 3 n) = 3%nat.
Proof. apply (format_0d_width 3 1000). vm_compute. reflexivity. Qed.

(** X2.  For a time from zero up to, but not including, one hundred hours
    the time stamp has exactly twelve characters, with colons after the
    hours and the minutes and a comma before the milliseconds. *)
Theorem srt_time_fixed_width (seconds : Q) :
  0 <= seconds -> seconds < 360000 ->
  List.length (seconds_to_srt_time seconds) = 12%nat /\
  nth 2 (seconds_to_srt_time seconds) SPACE = COLON /\
  nth 5 (seconds_to_srt_time seconds) SPACE = COLON /\
  nth 8 (seconds_to_srt_time seconds) SPACE = COMMA.
Proof.
  intros H0 H1. unfold seconds_to_srt_time.
  destruct (srt_fields_floor seconds) as (Hh & Hm & Hs & _ & Hr).
  destruct (floor_bounds seconds) as [F1 F2].
  assert (A : inject_Z (-1) < inject_Z (Qfloor seconds))
    by (change (inject_Z (-1)) with (-1); lra).
  assert (B : inject_Z (Qfloor seconds) < inject_Z 360000)
    by (change (inject_Z 360000) with 360000; lra).
  apply inject_Z_lt_inv in A, B.
  set (t := srt_fields seconds) in *.
  assert (L1 : List.length (format_0d 2 (srt_hours t)) = 2%nat)
    by (apply format_0d_two; rewrite Hh; Z.div_mod_to_equations; lia).
  assert (L2 : List.length (format_0d 2 (srt_minutes t)) = 2%nat)
    by (apply format_0d_two; rewrite Hm; Z.div_mod_to_equations; lia).
  assert (L3 : List.length (format_0d 2 (srt_secs t)) = 2%nat)
    by (apply format_0d_two; rewrite Hs; Z.div_mod_to_equations; lia).
  assert (L4 : List.length (format_0d 3 (srt_milliseconds t)) = 3%nat)
    by (apply format_0d_three; exact Hr).
  destruct (format_0d 2 (srt_hours t)) as [|h1 [|h2 [|? ?]]]; try discriminate.
  destruct (format_0d 2 (srt_minutes t)) as [|m1 [|m2 [|? ?]]]; try discriminate.
  destruct (format_0d 2 (srt_secs t)) as [|s1 [|s2 [|? ?]]]; try discriminate.
  destruct (format_0d 3 (srt_milliseconds t)) as [|d1 [|d2 [|d3 [|? ?]]]];
    try discriminate.
  repeat split.
Qed.

Lemma srt_time_fixed_width_witness :
  List.length (seconds_to_srt_time (3661 + (234 # 1000))) = 12%nat.
Proof.
  destruct (srt_time_fixed_width (3661 + (234 # 1000))) as (H & _);
    [discriminate | reflexivity | exact H].
Defined.

(** ** Caption file *)

Lemma count_newline_app (s t : str) :
  count_occ ascii_dec (s ++ t) NEWLINE
  = (count_occ ascii_dec s NEWLINE + count_occ ascii_dec t NEWLINE)%nat.
Proof. apply count_occ_app. Qed.

Lemma digits_no_newline (d : Decimal.uint) :
  count_occ ascii_dec (list_ascii_of_string (NilEmpty.string_of_uint d)) NEWLINE = 0%nat.
Proof. induction d; cbn; auto. Qed.

Lemma str_of_int_no_newline (n : Z) :
  count_occ ascii_dec (str_of_int n) NEWLINE = 0%nat.
Proof.
  unfold str_of_int. destruct (Z.to_int n) as [d | d]; cbn;
    apply digits_no_newline.
Qed.

Lemma zfill_no_newline (width : nat) (s : str) :
  count_occ ascii_dec s NEWLINE = 0%nat ->
  count_occ ascii_dec (zfill width s) NEWLINE = 0%nat.
Proof.
  intros H. unfold zfill. rewrite count_newline_app, H, Nat.add_0_r.
  induction (width - List.length s)%nat; cbn; auto.
Qed.

Lemma format_0d_no_newline (width : nat) (n : Z) :
  count_occ ascii_dec (format_0d width n) NEWLINE = 0%nat.
Proof.
  unfold format_0d. destruct (n <? 0)%Z.
  - change (count_occ ascii_dec (zfill (width - 1) (str_of_int (- n))) NEWLINE = 0%nat).
    apply zfill_no_newline, str_of_int_no_newline.
  - apply zfill_no_newline, str_of_int_no_newline.
Qed.

Lemma srt_time_no_newline (seconds : Q) :
  count_occ ascii_dec (seconds_to_srt_time seconds) NEWLINE = 0%nat.
Proof.
  unfold seconds_to_srt_time. rewrite !count_newline_app, !format_0d_no_newline.
  reflexivity.
Qed.

Lemma srt_block_newlines (i : Z) (segment : Subtitle) :
  count_occ ascii_dec (sub_text segment) NEWLINE = 0%nat ->
  count_occ ascii_dec (srt_block i segment) NEWLINE = 4%nat.
Proof.
  intros H. unfold srt_block.
  rewrite !count_newline_app, !srt_time_no_newline, str_of_int_no_newline, H.
  reflexivity.
Qed.

Lemma export_srt_newlines (segments : list Subtitle) (i : Z) :
  Forall (fun segment => count_occ ascii_dec (sub_text segment) NEWLINE = 0%nat)
         segments ->
  count_occ ascii_dec (srt_blocks i segments) NEWLINE = (4 * List.length segments)%nat.
Proof.
  intros H. revert i. induction H as [|segment rest Hseg _ IH]; intros i;
    [reflexivity|].
  cbn [srt_blocks List.length]. rewrite count_newline_app, IH, srt_block_newlines by exact Hseg.
  lia.
Qed.

Lemma norm_after_spaces (s : str) (b : bool) (c : ascii) :
  norm_after b s = true -> In c s -> isspace c = true -> c = SPACE.
Proof.
  revert b. induction s as [|d s IH]; intros b H Hin Hc; [destruct Hin|].
  cbn [norm_after] in H. destruct Hin as [<- | Hin].
  - rewrite Hc in H. apply andb_true_iff in H. destruct H as [H _].
    apply andb_true_iff in H. destruct H as [_ H]. apply Ascii.eqb_eq, H.
  - destruct (isspace d).
    + apply andb_true_iff in H. destruct H as [_ H]. apply (IH _ H Hin Hc).
    + apply (IH _ H Hin Hc).
Qed.

Lemma norm_spaces (s : str) (c : ascii) :
  norm s = true -> In c s -> isspace c = true -> c = SPACE.
Proof.
  destruct s as [|d s]; [intros _ []|]. unfold norm. apply norm_after_spaces.
Qed.

Lemma clean_no_newline (s : str) :
  count_occ ascii_dec (clean_subtitle_text s) NEWLINE = 0%nat.
Proof.
  apply count_occ_not_In. intros Hin.
  pose proof (norm_spaces _ NEWLINE (norm_clean s) Hin eq_refl) as E.
  discriminate.
Qed.

(** Each emitted text is a cleaned text. *)
Lemma emitted_text_cleaned (mw : Z) (md : Q) (segments : list Segment) (sub : Subtitle) :
  In sub (create_subtitle_segments mw md segments) ->
  exists s, sub_text sub = clean_subtitle_text s.
Proof.
  rewrite create_trace, in_flat_map. intros (segment & _ & Hin).
  apply in_app_or in Hin. destruct Hin as [Hin | Hin].
  - unfold fallback_subtitle in Hin.
    destruct (nonempty (dict_get (seg_words segment) [])); [destruct Hin|].
    destruct (nonempty (strip (dict_get (seg_text segment) []))); [|destruct Hin].
    destruct Hin as [<- | []]. eexists. reflexivity.
  - apply in_map_iff in Hin. destruct Hin as (g & <- & _). eexists. reflexivity.
Qed.

(** X3.  The caption file written for the segments of the Segment Timer
    holds exactly four lines per segment (number, time range, text, blank
    line): no emitted text spans several lines. *)
Theorem export_srt_four_lines_per_segment
    (max_words_per_segment : Z) (max_subtitle_duration : Q)
    (segments : list Segment) :
  let subtitles := create_subtitle_segments max_words_per_segment
                                            max_subtitle_duration segments in
  count_occ ascii_dec (export_srt subtitles) NEWLINE
  = (4 * List.length subtitles)%nat.
Proof.
  intros subtitles. apply export_srt_newlines, Forall_forall. intros sub Hin.
  destruct (emitted_text_cleaned _ _ _ _ Hin) as (s & ->).
  apply clean_no_newline.
Qed.

(** ** More on the text clean-up *)

Lemma norm_after_no_double_space (s : str) (b : bool) :
  norm_after b s = true -> space_before SPACE s = false.
Proof.
  revert b. induction s as [|c s IH]; intros b H; [reflexivity|].
  cbn [norm_after] in H. rewrite space_before_cons.
  destruct (isspace c) eqn:Hc.
  - apply andb_true_iff in H. destruct H as [_ H]. rewrite (IH _ H), orb_false_r.
    destruct (norm_after_false_inv _ H) as (d & s' & -> & Hd & _).
    rewrite (ink_not_space _ Hd). apply andb_false_r.
  - rewrite (ink_not_space _ Hc), (IH _ H). reflexivity.
Qed.

Lemma norm_after_last (s : str) (b : bool) :
  norm_after b s = true -> s <> [] -> endswith_any [SPACE] s = false.
Proof.
  unfold endswith_any. induction s as [|c s IH] using rev_ind; [congruence|].
  intros H _. rewrite rev_app_distr. cbn [rev app existsb]. rewrite orb_false_r.
  clear IH. revert b H. induction s as [|d s IH]; intros b H.
  - cbn [app norm_after] in H. destruct (isspace c) eqn:Hc.
    + rewrite !andb_false_r in H. discriminate.
    + apply ink_not_space, Hc.
  - cbn [app norm_after] in H. destruct (isspace d).
    + apply andb_true_iff in H. destruct H as [_ H]. apply (IH _ H).
    + apply (IH _ H).
Qed.

(** X4.  A cleaned text is single-spaced: the only white space in it is
    the space character, it neither starts nor ends with a space, and no
    space follows another. *)
Theorem clean_single_spaced (text : str) :
  (forall c, In c (clean_subtitle_text text) -> isspace c = true -> c = SPACE) /\
  hd_error (clean_subtitle_text text) <> Some SPACE /\
  endswith_any [SPACE] (clean_subtitle_text text) = false /\
  space_before SPACE (clean_subtitle_text text) = false.
Proof.
  pose proof (norm_clean text) as H.
  split; [intros c; apply norm_spaces; exact H|].
  destruct (clean_subtitle_text text) as [|c r] eqn:E;
    [repeat split; discriminate|].
  unfold norm in H. split; [|split].
  - destruct (norm_after_false_inv _ H) as (c' & r' & E' & Hc & _).
    injection E' as <- <-. intros E1. injection E1 as ->. discriminate Hc.
  - apply (norm_after_last _ _ H). discriminate.
  - apply (norm_after_no_double_space _ _ H).
Qed.

Lemma has_ink_lstrip (s : str) : has_ink s = false -> lstrip s = [].
Proof.
  induction s as [|c s IH]; [reflexivity|]. cbn [has_ink existsb lstrip].
  destruct (isspace c); cbn; [exact IH | discriminate].
Qed.

(** X5.  The cleaned text is empty exactly when the text holds no visible
    character: an empty or all-blank text cleans to the empty text, and
    nothing else does. *)
Theorem clean_empty_iff_blank (text : str) :
  clean_subtitle_text text = [] <-> has_ink text = false.
Proof.
  split.
  - intros E. destruct (has_ink text) eqn:H; [|reflexivity].
    exfalso. apply (clean_nonempty _ H E).
  - intros H. pose proof (clean_head text) as Hh.
    rewrite (has_ink_lstrip _ H) in Hh.
    destruct (clean_subtitle_text text); [reflexivity | discriminate].
Qed.

Lemma ink_app (s t : str) : ink (s ++ t) = ink s ++ ink t.
Proof. apply filter_app. Qed.

Lemma ink_cons (c : ascii) (s : str) :
  ink (c :: s) = if isspace c then ink s else c :: ink s.
Proof. unfold ink. cbn [filter]. destruct (isspace c); reflexivity. Qed.

Lemma ink_collapse (s : str) : ink (collapse_whitespace s) = ink s.
Proof.
  unfold collapse_whitespace. induction s as [|c s IH]; [reflexivity|].
  rewrite (ink_cons c s). destruct (isspace c) eqn:Hc.
  - rewrite (split_space_cons c s Hc). exact IH.
  - destruct s as [|d s'].
    + cbn [split]. rewrite Hc. cbn [join]. rewrite ink_cons, Hc. reflexivity.
    + destruct (isspace d) eqn:Hd.
      * rewrite (split_ink_space c d s' Hc Hd).
        destruct (split (d :: s')) as [|t ts] eqn:E.
        -- cbn [join]. rewrite ink_cons, Hc, <- IH. reflexivity.
        -- rewrite join_cons_cons, <- IH.
           change ([c] ++ [SPACE] ++ join [SPACE] (t :: ts))
             with (c :: SPACE :: join [SPACE] (t :: ts)).
           rewrite !ink_cons, Hc. reflexivity.
      * destruct (split_ink_cons d s' Hd) as (t & ts & E).
        rewrite (split_ink_ink c d s' _ _ Hc Hd E), join_cons_head.
        rewrite E in IH. rewrite ink_cons, Hc, IH. reflexivity.
Qed.

Lemma ink_drop (ms : list ascii) (s : str) : ink (drop_space_before ms s) = ink s.
Proof.
  induction s as [|c s IH]; [reflexivity|]. cbn [drop_space_before].
  rewrite (ink_cons c s).
  destruct (Ascii.eqb c SPACE) eqn:Hc; cbn [andb].
  - rewrite (space_is_space _ Hc).
    destruct (match s with [] => false | d :: _ => existsb (Ascii.eqb d) ms end);
      [exact IH|].
    rewrite ink_cons, (space_is_space _ Hc). exact IH.
  - rewrite ink_cons, IH. reflexivity.
Qed.

Lemma ink_capitalize (s : str) :
  norm s = true -> ink (capitalize_first s) = capitalize_first (ink s).
Proof.
  destruct s as [|c s]; [reflexivity|]. intros H.
  destruct (norm_after_false_inv _ H) as (c' & s' & E & Hc & _).
  injection E as <- <-. cbn [capitalize_first].
  rewrite !ink_cons, isspace_upper, Hc. reflexivity.
Qed.

(** X6.  On ASCII text the clean-up neither drops, adds nor reorders
    visible characters: the characters of the cleaned text that are not
    white space are those of the input, the first of them upper-cased. *)
Theorem clean_keeps_visible_characters (text : str) :
  isascii text = true ->
  ink (clean_subtitle_text text) = capitalize_first (ink text).
Proof.
  intros _. rewrite clean_one_pass. unfold clean_spec.
  rewrite ink_drop, ink_capitalize by apply norm_collapse.
  rewrite ink_collapse. reflexivity.
Qed.

Lemma clean_keeps_visible_characters_witness :
  ink (clean_subtitle_text (chars "so , it  goes")) = chars "So,itgoes".
Proof.
  apply (clean_keeps_visible_characters (chars "so , it  goes")).
  reflexivity.
Defined.

(** ** More on the Segment Timer *)

(** X7.  The word groups of a transcription segment, put end to end, are
    exactly its words with text, in input order: no such word is lost,
    repeated or moved, and each emitted text is the cleaned join of the
    words of its group. *)
Theorem every_word_in_one_segment
    (max_words_per_segment : Z) (max_subtitle_duration : Q) (segment : Segment) :
  List.concat (map g_words (segment_groups max_words_per_segment
                                           max_subtitle_duration segment))
  = spoken (dict_get (seg_words segment) []) /\
  (forall out,
     segment_step max_words_per_segment max_subtitle_duration out segment
     = out ++ fallback_subtitle segment
           ++ map render (segment_groups max_words_per_segment
                                         max_subtitle_duration segment)) /\
  (forall g, sub_text (render g)
             = clean_subtitle_text (join [SPACE] (map word_text (g_words g)))).
Proof.
  split; [apply groups_partition|]. split; [|reflexivity].
  intros out. apply segment_step_trace.
Qed.

Lemma step_mid_sentence (mw : Z) (md : Q) (gs : GroupState) (w : WordInfo) :
  Forall mid_sentence (pending gs) /\
  Forall (fun g => Forall mid_sentence (removelast (g_words g))) (closed gs) ->
  Forall mid_sentence (pending (group_step mw md gs w)) /\
  Forall (fun g => Forall mid_sentence (removelast (g_words g)))
         (closed (group_step mw md gs w)).
Proof.
  intros [Hp Hc]. unfold group_step.
  destruct (has_text w); cbn [negb]; [|split; assumption].
  destruct (is_sentence_end (word_text w)) eqn:Hend.
  - rewrite orb_true_r. cbn [orb pending closed]. split; [constructor|].
    apply Forall_app. split; [exact Hc|]. constructor; [|constructor].
    cbn [g_words]. rewrite removelast_last. exact Hp.
  - rewrite orb_false_r.
    assert (Hb : Forall mid_sentence (pending gs ++ [w])).
    { apply Forall_app. split; [exact Hp|]. constructor; [exact Hend | constructor]. }
    match goal with |- context [if ?b then _ else _] => destruct b end;
      cbn [pending closed].
    + split; [constructor|]. apply Forall_app. split; [exact Hc|].
      constructor; [|constructor]. cbn [g_words]. rewrite removelast_last. exact Hp.
    + split; assumption.
Qed.

(** X8.  A word that ends a sentence is always the last word of its
    segment: in every word group, no word but the last ends in [.], [!] or
    [?]. *)
Theorem sentence_end_closes_segment
    (max_words_per_segment : Z) (max_subtitle_duration : Q)
    (segment : Segment) (g : Group) (w : WordInfo) :
  In g (segment_groups max_words_per_segment max_subtitle_duration segment) ->
  In w (removelast (g_words g)) ->
  is_sentence_end (word_text w) = false.
Proof.
  unfold segment_groups, word_groups. intros Hg Hw.
  set (words := dict_get (seg_words segment) []) in *.
  assert (H : Forall mid_sentence
                (pending (group_loop max_words_per_segment max_subtitle_duration
                                     (mkGroups [] []) words)) /\
              Forall (fun g => Forall mid_sentence (removelast (g_words g)))
                (closed (group_loop max_words_per_segment max_subtitle_duration
                                    (mkGroups [] []) words))).
  { apply (fold_left_invariant _ _
             (group_step max_words_per_segment max_subtitle_duration)
             (fun gs => Forall mid_sentence (pending gs) /\
                        Forall (fun g => Forall mid_sentence (removelast (g_words g)))
                               (closed gs))).
    - intros gs x. apply step_mid_sentence.
    - split; constructor. }
  destruct H as [Hp Hc]. apply in_app_or in Hg. destruct Hg as [Hg | Hg].
  - rewrite Forall_forall in Hc. specialize (Hc g Hg).
    rewrite Forall_forall in Hc. apply Hc, Hw.
  - unfold flush_group in Hg.
    destruct (pending (group_loop max_words_per_segment max_subtitle_duration
                                  (mkGroups [] []) words)) as [|v b] eqn:E;
      [destruct Hg|].
    destruct Hg as [<- | []]. cbn [g_words] in Hw.
    rewrite Forall_forall in Hp. apply Hp.
    clear -Hw. revert Hw. generalize (v :: b). intros l.
    induction l as [|x l IH]; [intros []|].
    destruct l as [|y l]; [intros []|].
    intros [-> | H]; [left; reflexivity | right; apply IH, H].
Qed.

Lemma sentence_end_closes_segment_witness :
  is_sentence_end (word_text (timed_word " Hello" 0 (1 # 10))) = false.
Proof.
  apply (sentence_end_closes_segment 3 1 (word_segment hello_words)
           (mkGroup [timed_word " Hello" 0 (1 # 10);
                     timed_word " world." (1 # 10) (2 # 10)] 0 (2 # 10))).
  - vm_compute. left. reflexivity.
  - left. reflexivity.
Defined.

Lemma concat_length_bounds (m : nat) (ls : list (list WordInfo)) :
  Forall (fun l => (1 <= List.length l <= m)%nat) ls ->
  (List.length ls <= List.length (List.concat ls) <= m * List.length ls)%nat.
Proof.
  induction 1 as [|l ls Hl _ IH]; cbn [List.concat List.length]; [lia|].
  rewrite length_app. lia.
Qed.

(** X9.  With a positive [max_words_per_segment], a transcription segment
    with [n] words that have text yields at most [n] word groups and at
    least [n / max_words_per_segment] of them. *)
Theorem segment_count_bounds
    (max_words_per_segment : Z) (max_subtitle_duration : Q) (segment : Segment) :
  (1 <= max_words_per_segment)%Z ->
  let groups := segment_groups max_words_per_segment max_subtitle_duration segment in
  let n := List.length (spoken (dict_get (seg_words segment) [])) in
  (List.length groups <= n)%nat /\
  (Z.of_nat n <= max_words_per_segment * Z.of_nat (List.length groups))%Z.
Proof.
  intros Hmw groups n.
  assert (H : Forall (fun l => (1 <= List.length l
                                <= Z.to_nat max_words_per_segment)%nat)
                     (map g_words groups)).
  { apply Forall_forall. intros l Hl. apply in_map_iff in Hl.
    destruct Hl as (g & <- & Hg).
    destruct (groups_counted _ _ _ g Hmw Hg) as [A B]. lia. }
  apply concat_length_bounds in H. rewrite length_map in H.
  assert (E : List.length (List.concat (map g_words groups)) = n).
  { unfold groups, segment_groups, n. rewrite groups_partition. reflexivity. }
  rewrite E in H. destruct H as [H1 H2]. split; [exact H1|].
  apply Nat2Z.inj_le in H2. rewrite Nat2Z.inj_mul, Z2Nat.id in H2 by lia.
  exact H2.
Qed.

Lemma segment_count_bounds_witness :
  (List.length (segment_groups 3 1 (word_segment hello_words)) <= 6)%nat.
Proof.
  destruct (segment_count_bounds 3 1 (word_segment hello_words)) as [H _];
    [lia | exact H].
Defined.

Lemma single_word_step (mw : Z) (md : Q) (w : WordInfo) (done : list Group) :
  (mw <= 1)%Z ->
  group_step mw md (mkGroups [] done) w
  = mkGroups [] (if has_text w then done ++ [single_word_group w] else done).
Proof.
  intros Hmw. unfold group_step. destruct (has_text w); cbn [negb pending closed];
    [|reflexivity].
  replace (mw <=? Z.of_nat (List.length ([] ++ [w])))%Z with true
    by (symmetry; apply Z.leb_le; cbn; lia).
  reflexivity.
Qed.

Lemma single_word_loop (mw : Z) (md : Q) (words : list WordInfo) (done : list Group) :
  (mw <= 1)%Z ->
  group_loop mw md (mkGroups [] done) words
  = mkGroups [] (done ++ map single_word_group (spoken words)).
Proof.
  intros Hmw. revert done. induction words as [|w words IH]; intros done.
  - cbn. rewrite app_nil_r. reflexivity.
  - change (group_loop mw md (mkGroups [] done) (w :: words))
      with (group_loop mw md (group_step mw md (mkGroups [] done) w) words).
    rewrite single_word_step by exact Hmw. rewrite IH, spoken_cons.
    destruct (has_text w); [|reflexivity].
    cbn [map]. rewrite <- app_assoc. reflexivity.
Qed.

(** X10.  With [max_words_per_segment] at most one (zero and negative
    values included) every word with text becomes a segment of its own,
    from that word's start to its end. *)
Theorem one_word_per_segment
    (max_words_per_segment : Z) (max_subtitle_duration : Q) (segment : Segment) :
  (max_words_per_segment <= 1)%Z ->
  segment_groups max_words_per_segment max_subtitle_duration segment
  = map single_word_group (spoken (dict_get (seg_words segment) [])).
Proof.
  intros Hmw. unfold segment_groups, word_groups, flush_group.
  rewrite single_word_loop by exact Hmw. cbn. apply app_nil_r.
Qed.

Lemma one_word_per_segment_witness :
  segment_groups 0 1 (word_segment hello_words)
  = map single_word_group (spoken hello_words).
Proof. apply (one_word_per_segment 0 1 (word_segment hello_words)). lia. Defined.

(** X11.  A transcription segment whose word list is not empty but holds
    no word with text adds nothing to the output, whatever text the segment
    itself carries: the fallback path is taken only for an empty or missing
    word list. *)
Theorem blank_word_list_emits_nothing
    (max_words_per_segment : Z) (max_subtitle_duration : Q)
    (out : list Subtitle) (segment : Segment) :
  dict_get (seg_words segment) [] <> [] ->
  spoken (dict_get (seg_words segment) []) = [] ->
  segment_step max_words_per_segment max_subtitle_duration out segment = out.
Proof.
  intros Hne Hblank. unfold segment_step.
  destruct (dict_get (seg_words segment) []) as [|w words] eqn:E; [congruence|].
  cbn [nonempty negb]. rewrite loop_skips_empty, Hblank. reflexivity.
Qed.

Lemma blank_word_list_emits_nothing_witness :
  segment_step 3 1 []
    (mkSegment (Some blank_words) (Some (chars "Hello there")) (Some 0) (Some 1))
  = [].
Proof.
  apply blank_word_list_emits_nothing; [discriminate | reflexivity].
Defined.













(** ** More on the Frame Fitter *)




(** ** More on the Part Splitter *)

(** X19.  A video that is not longer than the limit (and not empty) comes
    out of the splitter as a single part, numbered 1, from 0 to the end of
    the video. *)
Theorem short_video_single_part (total_duration max_duration : Q) :
  0 < total_duration -> total_duration <= max_duration ->
  exists p,
    split_and_export_video total_duration max_duration = Some [p] /\
    part_index p = 1%Z /\ part_start p == 0 /\ part_end p == total_duration.
Proof.
  intros Ht Hm. unfold split_and_export_video.
  destruct (Qeq_bool max_duration 0) eqn:Hz; [apply Qeq_bool_iff in Hz; lra|].
  rewrite num_parts_ceiling by lra.
  assert (E : Qceiling (total_duration / max_duration) = 1%Z).
  { apply ceiling_unique.
    - change (inject_Z 1 - 1) with (1 - 1). apply Qlt_shift_div_l; lra.
    - apply Qle_shift_div_r; [lra|]. change (inject_Z 1) with 1. lra. }
  rewrite E. change (Py.range 1) with [0%Z]. cbn [map].
  eexists. split; [reflexivity|].
  unfold part_boundary. cbn [part_index part_start part_end].
  change (inject_Z (0 + 1)) with 1. change (inject_Z 0) with 0.
  split; [reflexivity|]. split; [ring|].
  unfold Py.min.
  destruct (Qlt_le_dec total_duration (1 * max_duration)); [reflexivity | lra].
Qed.

Lemma short_video_single_part_witness :
  exists p,
    split_and_export_video 60 90 = Some [p] /\
    part_index p = 1%Z /\ part_start p == 0 /\ part_end p == 60.
Proof. apply short_video_single_part; [reflexivity | discriminate]. Defined.



(** ** File names *)

Lemma str_of_int_injective (a b : Z) : str_of_int a = str_of_int b -> a = b.
Proof.
  unfold str_of_int. intros H.
  apply (f_equal string_of_list_ascii) in H.
  rewrite !string_of_list_ascii_of_string in H.
  apply (f_equal NilEmpty.int_of_string) in H. rewrite !NilEmpty.isi in H.
  injection H as H. apply (f_equal Z.of_int) in H.
  rewrite !DecimalZ.of_to in H. exact H.
Qed.

Lemma numbered_name_injective (pre post : str) (a b : Z) :
  pre ++ str_of_int (a + 1) ++ post = pre ++ str_of_int (b + 1) ++ post -> a = b.
Proof.
  intros H. apply app_inv_head, app_inv_tail, str_of_int_injective in H. lia.
Qed.

Lemma NoDup_map_injective (A B : Type) (f : A -> B) (l : list A) :
  (forall a b, f a = f b -> a = b) -> NoDup l -> NoDup (map f l).
Proof.
  intros Hf. induction 1 as [|x l Hx _ IH]; cbn [map]; constructor; [|exact IH].
  intros Hin. apply in_map_iff in Hin. destruct Hin as (y & E & Hy).
  apply Hf in E. subst y. contradiction.
Qed.

Lemma range_NoDup (n : Z) : NoDup (Py.range n).
Proof.
  unfold Py.range. apply NoDup_map_injective; [|apply seq_NoDup].
  intros a b. apply Nat2Z.inj.
Qed.

(** X21.  The parts of one split get pairwise distinct file names and
    pairwise distinct temporary audio file names, and as many file names
    are returned as there are parts. *)
Theorem part_file_names_distinct (base_name : str) (total_duration max_duration : Q) :
  ~ max_duration == 0 ->
  exists paths parts,
    split_output_paths base_name total_duration max_duration = Some paths /\
    split_and_export_video total_duration max_duration = Some parts /\
    List.length paths = List.length parts /\
    NoDup paths /\
    NoDup (map temp_audiofile (Py.range (num_parts total_duration max_duration))).
Proof.
  intros Hm. unfold split_output_paths, split_and_export_video.
  destruct (Qeq_bool max_duration 0) eqn:Hz; [apply Qeq_bool_iff in Hz; contradiction|].
  eexists _, _. split; [reflexivity|]. split; [reflexivity|].
  split; [rewrite !length_map; reflexivity|]. split.
  - apply NoDup_map_injective; [|apply range_NoDup].
    intros a b H.
    apply (numbered_name_injective (base_name ++ chars "_part") (chars ".mp4")).
    rewrite <- !app_assoc. exact H.
  - apply NoDup_map_injective; [|apply range_NoDup].
    intros a b. unfold temp_audiofile. apply numbered_name_injective.
Qed.

Lemma part_file_names_distinct_witness :
  exists paths parts,
    split_output_paths (chars "out/v") 185 90 = Some paths /\
    split_and_export_video 185 90 = Some parts /\
    List.length paths = List.length parts /\
    NoDup paths /\
    NoDup (map temp_audiofile (Py.range (num_parts 185 90))).
Proof. apply part_file_names_distinct. discriminate. Defined.

Lemma startswith_app (p r : str) : startswith p (p ++ r) = true.
Proof.
  induction p as [|c p IH]; [destruct r; reflexivity|].
  cbn. rewrite Ascii.eqb_refl. exact IH.
Qed.

Lemma endswith_app (suffix s : str) : endswith suffix (s ++ suffix) = true.
Proof. unfold endswith. rewrite rev_app_distr. apply startswith_app. Qed.

(** X22.  The output file name always ends in [.mp4].  A custom name that
    already ends in [.mp4] is used as it is, any other custom name gets the
    extension appended once, and without a custom name (none, or an empty
    one) the name is [short_video_<timestamp>.mp4], with no second
    extension. *)
Theorem output_filename_ends_mp4 (custom_filename : option str) (timestamp : str) :
  endswith (chars ".mp4") (output_filename custom_filename timestamp) = true /\
  (dict_get custom_filename [] = [] ->
   output_filename custom_filename timestamp
   = chars "short_video_" ++ timestamp ++ chars ".mp4") /\
  (dict_get custom_filename [] <> [] ->
   output_filename custom_filename timestamp
   = if endswith (chars ".mp4") (dict_get custom_filename [])
     then dict_get custom_filename []
     else dict_get custom_filename [] ++ chars ".mp4").
Proof.
  unfold output_filename.
  assert (Hd : generate_timestamped_filename (chars "short_video") (chars "mp4")
                 None timestamp
               = (chars "short_video_" ++ timestamp) ++ chars ".mp4").
  { unfold generate_timestamped_filename. cbn [dict_get nonempty].
    rewrite <- app_assoc. reflexivity. }
  destruct (dict_get custom_filename []) as [|c name] eqn:E; cbn [nonempty].
  - rewrite Hd, endswith_app. cbn [negb].
    split; [apply endswith_app|]. split; [|congruence].
    intros _. rewrite <- app_assoc. reflexivity.
  - destruct (endswith (chars ".mp4") (c :: name)) eqn:He; cbn [negb].
    + split; [exact He|]. split; [discriminate | reflexivity].
    + split; [apply endswith_app|]. split; [discriminate | reflexivity].
Qed.

Lemma output_filename_ends_mp4_witness :
  output_filename (Some (chars "clip")) (chars "20240101_120000") = chars "clip.mp4".
Proof.
  destruct (output_filename_ends_mp4 (Some (chars "clip")) (chars "20240101_120000"))
    as (_ & _ & H).
  rewrite H by discriminate. reflexivity.
Defined.

(** ** More on the Composer *)

(** X24.  On a normal return of [compose_video] the artifact is the list
    of part paths exactly when the split branch was taken, and the three
    handles are those created, each closed once, in order of creation. *)
Theorem compose_video_return_state (env : Env) (a : Artifact) (h : Handles) :
  compose_video env no_handles = (Returned a, h) ->
  a = (if must_split env then PartPaths else SinglePath) /\
  loaded h = [VideoClip; AudioClip; FinalVideo] /\
  released h = [VideoClip; AudioClip; FinalVideo].
Proof.
  destruct env as [[|] [|] [|] [|] [|] [|]]; vm_compute; intros E;
    inversion E; subst; repeat split.
Qed.

Lemma compose_video_return_state_witness :
  SinglePath = SinglePath /\
  loaded (mkHandles [VideoClip; AudioClip; FinalVideo] [VideoClip; AudioClip; FinalVideo])
  = [VideoClip; AudioClip; FinalVideo] /\
  released (mkHandles [VideoClip; AudioClip; FinalVideo] [VideoClip; AudioClip; FinalVideo])
  = [VideoClip; AudioClip; FinalVideo].
Proof.
  apply (compose_video_return_state (mkEnv true true true true false true)).
  reflexivity.
Defined.
